(** * Sound-mode resolver of the Denon AVR client (denonavr/soundmode.py)

    A shallow embedding of [DenonAVRSoundMode] and of the functions around
    it.  Python objects that have an identity (the [OrderedDict] holding the
    mode map, the alias lists stored in it, the [dict] holding the reverse
    map) live in a heap and are referred to by location, because the source
    shares them: the attribute default [SOUND_MODE_MAPPING] is one module
    level object handed to every instance, and the accessors hand out deep
    copies.  Coroutines are computations over the resolver, the heap and the
    list of calls made to the device API.

    Strings are byte strings; [upper] and [rstrip] are the ASCII parts of
    Python's [str.upper] and [str.rstrip]. *)

From Stdlib Require Import Ascii String.
From stdpp Require Import gmap strings list fin_maps.

Local Open Scope string_scope.
Local Open Scope list_scope.

(** ** Strings *)

(** [str.upper] on ASCII letters. *)
Definition upper_char (c : ascii) : ascii :=
  let n := nat_of_ascii c in
  if ((97 <=? n) && (n <=? 122))%nat then ascii_of_nat (n - 32) else c.

Fixpoint upper (s : string) : string :=
  match s with
  | EmptyString => EmptyString
  | String c s' => String (upper_char c) (upper s')
  end.

(** The characters [str.rstrip()] removes: tab to carriage return, the four
    separators 0x1c to 0x1f, and the space. *)
Definition is_space (c : ascii) : bool :=
  let n := nat_of_ascii c in
  (((9 <=? n) && (n <=? 13)) || ((28 <=? n) && (n <=? 32)))%nat.

Fixpoint rstrip (s : string) : string :=
  match s with
  | EmptyString => EmptyString
  | String c s' =>
      match rstrip s' with
      | EmptyString => if is_space c then EmptyString else String c EmptyString
      | t => String c t
      end
  end.

(** [rstrip_string]: [None] stays [None], anything else is right-stripped. *)
Definition rstrip_string (value : option string) : option string :=
  match value with
  | None => None
  | Some v => Some (rstrip v)
  end.

(** ** Python objects and the heap *)

Abbreviation loc := nat.

Inductive pyobj :=
  | PyList (elems : list string)
  | PyOrderedDict (entries : list (string * loc))
  | PyDict (table : gmap string string).

Abbreviation Heap := (gmap nat pyobj).

(** Object creation: a location no object of the heap has. *)
Definition alloc (h : Heap) (o : pyobj) : loc * Heap :=
  let l := fresh (dom h) in (l, <[l := o]> h).

Definition list_elems (h : Heap) (l : loc) : list string :=
  match h !! l with Some (PyList xs) => xs | _ => [] end.

Definition odict_entries (h : Heap) (l : loc) : list (string * loc) :=
  match h !! l with Some (PyOrderedDict es) => es | _ => [] end.

Definition dict_table (h : Heap) (l : loc) : gmap string string :=
  match h !! l with Some (PyDict d) => d | _ => ∅ end.

(** [d[k] = v] on the entries of an [OrderedDict]: an existing key keeps its
    position, a new key goes to the end. *)
Fixpoint odict_setitem {V} (es : list (string * V)) (k : string) (v : V)
  : list (string * V) :=
  match es with
  | [] => [(k, v)]
  | (k', v') :: rest =>
      if decide (k' = k) then (k, v) :: rest
      else (k', v') :: odict_setitem rest k v
  end.

Fixpoint odict_getitem {V} (es : list (string * V)) (k : string) : option V :=
  match es with
  | [] => None
  | (k', v') :: rest => if decide (k' = k) then Some v' else odict_getitem rest k
  end.

(** [list(d.items())] with the alias lists read through: the mode map as the
    loops of the source see it. *)
Definition mode_map_items (h : Heap) (l : loc) : list (string * list string) :=
  (λ e, (e.1, list_elems h e.2)) <$> odict_entries h l.

(** ** The device the resolver talks to *)

Inductive Exn :=
  | AvrProcessingError (msg : string)
  | OtherError (name : string).

Inductive Receiver := AVR | AVR_X | AVR_X_2016.

Inductive AppCommand := GetSurroundModeStatus.

Inductive Call :=
  | AppCommandUpdate (tags : list AppCommand) (global_update : bool)
      (cache_id : option nat)
  | StatusXmlUpdate (attrs : list (string * string)) (urls : list string)
      (cache_id : option nat)
  | GetCommand (url : string).

#[global] Instance AppCommand_eq_dec : EqDecision AppCommand.
Proof. solve_decision. Defined.

#[global] Instance Call_eq_dec : EqDecision Call.
Proof. solve_decision. Defined.

Inductive Outcome :=
  | Fetched (value : option string)
  | Failed (e : Exn).

Record Urls := {
  status : string;
  mainzone : string;
  command_sel_sound_mode : string;
  command_set_all_zone_stereo : string }.

(** [api] answers a call given the calls made before it. *)
Record Device := {
  receiver : Receiver;
  use_avr_2016_update : option bool;
  urls : Urls;
  api : list Call → Call → Outcome }.

(** ** The resolver *)

Record DenonAVRSoundMode := {
  _device : Device;
  _is_setup : bool;
  _support_sound_mode : option bool;
  _sound_mode_raw : option string;
  _sound_mode_map : loc;
  _sound_mode_map_rev : loc }.

(** The two loops of [sound_mode_rev_map_factory] over the items. *)
Definition rev_map_add_entry (mode_map_rev : gmap string string)
    (entry : string * list string) : gmap string string :=
  foldl (λ rev raw_mode, <[upper raw_mode := entry.1]> rev) mode_map_rev entry.2.

Definition rev_map_of_items (mode_map : list (string * list string))
  : gmap string string :=
  foldl rev_map_add_entry ∅ mode_map.

Definition sound_mode_rev_map_factory (h : Heap) (instance : DenonAVRSoundMode)
  : gmap string string :=
  let mode_map := mode_map_items h (_sound_mode_map instance) in
  rev_map_of_items mode_map.

(** ** Coroutines

    An [async def] applied to its arguments is a coroutine object: a
    computation that has not started.  Only [await] runs it.  It runs over
    the resolver [self], the heap, the calls made to the device API so far
    and the update tags registered there; an exception leaves the state as
    it was when it was raised. *)

Record State := {
  self : DenonAVRSoundMode;
  heap : Heap;
  calls : list Call;
  update_tags : list AppCommand }.

Inductive Result (A : Type) :=
  | Return (a : A)
  | Raise (e : Exn).
Arguments Return {A} a.
Arguments Raise {A} e.

Definition Coroutine (A : Type) : Type := State → Result A * State.

Definition ret {A} (a : A) : Coroutine A := λ st, (Return a, st).

Definition raise {A} (e : Exn) : Coroutine A := λ st, (Raise e, st).

Definition bind {A B} (c : Coroutine A) (k : A → Coroutine B) : Coroutine B :=
  λ st, match c st with
        | (Return a, st') => k a st'
        | (Raise e, st') => (Raise e, st')
        end.

(** [await c] runs the coroutine object [c] to its end. *)
Definition await {A} (c : Coroutine A) : Coroutine A := c.

(** A call of an [async def] used as a statement, without [await]: the
    coroutine object is created and dropped, its body never runs. *)
Definition not_awaited {A} (c : Coroutine A) : Coroutine unit := ret tt.

(** [try: body  except AvrProcessingError: handler]. *)
Definition try_except_AvrProcessingError {A} (body handler : Coroutine A)
  : Coroutine A :=
  λ st, match body st with
        | (Raise (AvrProcessingError _), st') => handler st'
        | r => r
        end.

Declare Scope coroutine_scope.
Delimit Scope coroutine_scope with coro.
Bind Scope coroutine_scope with Coroutine.
Notation "x <- c ;; k" := (bind c (λ x, k))
  (at level 100, c at next level, right associativity) : coroutine_scope.
Notation "c ;; k" := (bind c (λ _, k))
  (at level 100, right associativity) : coroutine_scope.

Definition get_self : Coroutine DenonAVRSoundMode := λ st, (Return (self st), st).

(** Attribute assignments on [self].  Assigning [_sound_mode_raw] runs its
    converter, [optional(rstrip_string)]. *)
Definition with_is_setup (s : DenonAVRSoundMode) (v : bool) :=
  {| _device := _device s; _is_setup := v;
     _support_sound_mode := _support_sound_mode s;
     _sound_mode_raw := _sound_mode_raw s;
     _sound_mode_map := _sound_mode_map s;
     _sound_mode_map_rev := _sound_mode_map_rev s |}.

Definition with_support_sound_mode (s : DenonAVRSoundMode) (v : option bool) :=
  {| _device := _device s; _is_setup := _is_setup s;
     _support_sound_mode := v;
     _sound_mode_raw := _sound_mode_raw s;
     _sound_mode_map := _sound_mode_map s;
     _sound_mode_map_rev := _sound_mode_map_rev s |}.

Definition with_sound_mode_raw (s : DenonAVRSoundMode) (v : option string) :=
  {| _device := _device s; _is_setup := _is_setup s;
     _support_sound_mode := _support_sound_mode s;
     _sound_mode_raw := rstrip_string v;
     _sound_mode_map := _sound_mode_map s;
     _sound_mode_map_rev := _sound_mode_map_rev s |}.

Definition with_sound_mode_map_rev (s : DenonAVRSoundMode) (v : loc) :=
  {| _device := _device s; _is_setup := _is_setup s;
     _support_sound_mode := _support_sound_mode s;
     _sound_mode_raw := _sound_mode_raw s;
     _sound_mode_map := _sound_mode_map s;
     _sound_mode_map_rev := v |}.

Definition set_self (f : DenonAVRSoundMode → DenonAVRSoundMode) : Coroutine unit :=
  λ st, (Return tt,
         {| self := f (self st); heap := heap st; calls := calls st;
            update_tags := update_tags st |}).

(** One call to the device API: it is recorded, and the device answers. *)
Definition record_call (st : State) (c : Call) : State :=
  {| self := self st; heap := heap st; calls := calls st ++ [c];
     update_tags := update_tags st |}.

Definition call_api (c : Call) : Coroutine (option string) :=
  λ st, match api (_device (self st)) (calls st) c with
        | Fetched value => (Return value, record_call st c)
        | Failed e => (Raise e, record_call st c)
        end.

(** [self._device.api.async_get_command(command_url)]. *)
Definition async_get_command (command_url : string) : Coroutine unit :=
  (call_api (GetCommand command_url) ;; ret tt)%coro.

(** [self._device.api.add_appcommand_update_tag(tag)]: no request is made. *)
Definition add_appcommand_update_tag (tag : AppCommand) : Coroutine unit :=
  λ st, (Return tt,
         {| self := self st; heap := heap st; calls := calls st;
            update_tags := update_tags st ++ [tag] |}).

(** Modelled from the spec: [async_update_attrs_status_xml], a method of the
    base class in foundation.py.  Section 6: "given a set of (field-name,
    XML-path) pairs and a list of candidate page URLs, fetches and parses
    values; fails with a processing error if none of the requested paths
    resolve"; section 4.3: on success the raw value is stored.  Both update
    dictionaries of the resolver name the one attribute [_sound_mode_raw]. *)
Definition async_update_attrs_status_xml (update_dict : list (string * string))
    (urls : list string) (cache_id : option nat) : Coroutine unit :=
  (value <- call_api (StatusXmlUpdate update_dict urls cache_id) ;;
   set_self (λ s, with_sound_mode_raw s value))%coro.

(** Modelled from the spec: [async_update_attrs_appcommand], a method of the
    base class in foundation.py.  Section 4.3: "issue a single query for the
    sound-mode status tag through the command-aggregation transport. Any
    failure from this path propagates to the caller". *)
Definition async_update_attrs_appcommand (update_dict : list AppCommand)
    (global_update : bool) (cache_id : option nat) : Coroutine unit :=
  (value <- call_api (AppCommandUpdate update_dict global_update cache_id) ;;
   set_self (λ s, with_sound_mode_raw s value))%coro.

(** Modelled from the spec: the constant [ALL_ZONE_STEREO] of const.py;
    section 8 names the pseudo-mode "ALL ZONE STEREO". *)
Definition ALL_ZONE_STEREO : string := "ALL ZONE STEREO".

(** Update tags of the class. *)
Definition appcommand_attrs : list AppCommand := [GetSurroundModeStatus].
Definition status_xml_attrs_01 : list (string * string) :=
  [("_sound_mode_raw", "./selectSurround/value")].
Definition status_xml_attrs_02 : list (string * string) :=
  [("_sound_mode_raw", "./SurrMode/value")].

(** ** Methods of [DenonAVRSoundMode] *)

(** A synchronous method works on [self] and the heap only. *)
Definition on_self {A}
    (m : DenonAVRSoundMode → Heap → A * DenonAVRSoundMode * Heap) : Coroutine A :=
  λ st, let r := m (self st) (heap st) in
        (Return r.1.1,
         {| self := r.1.2; heap := r.2; calls := calls st;
            update_tags := update_tags st |}).

(** [DenonAVRSoundMode(device=...)]: the attrs defaults.  The mode map is the
    module level object [SOUND_MODE_MAPPING] itself (a plain default, not a
    factory), the reverse map a new [dict] built by
    [sound_mode_rev_map_factory] from the instance under construction. *)
Definition new_DenonAVRSoundMode (SOUND_MODE_MAPPING : loc) (device : Device)
    (h : Heap) : DenonAVRSoundMode * Heap :=
  let instance :=
    {| _device := device; _is_setup := false;
       _support_sound_mode := None; _sound_mode_raw := None;
       _sound_mode_map := SOUND_MODE_MAPPING;
       _sound_mode_map_rev := 0 |} in
  let rev := alloc h (PyDict (sound_mode_rev_map_factory h instance)) in
  (with_sound_mode_map_rev instance rev.1, rev.2).

(** [sound_mode_factory(instance)], given the device of the instance. *)
Definition sound_mode_factory (SOUND_MODE_MAPPING : loc) (device : Device)
    (h : Heap) : DenonAVRSoundMode * Heap :=
  new_DenonAVRSoundMode SOUND_MODE_MAPPING device h.

(** [self._sound_mode_map[k] = v], [v] an object of the heap. *)
Definition odict_store (h : Heap) (d : loc) (k : string) (v : loc) : Heap :=
  <[d := PyOrderedDict (odict_setitem (odict_entries h d) k v)]> h.

Definition match_sound_mode (s : DenonAVRSoundMode) (h : Heap)
    (sound_mode_raw : string) : option string * DenonAVRSoundMode * Heap :=
  match _sound_mode_raw s with
  | None => (None, s, h)
  | Some _ =>
      match dict_table h (_sound_mode_map_rev s) !! upper sound_mode_raw with
      | Some sound_mode => (Some sound_mode, s, h)
      | None =>
          (* except KeyError *)
          let smr_up := upper sound_mode_raw in
          let aliases := alloc h (PyList [smr_up]) in
          let h1 := odict_store aliases.2 (_sound_mode_map s) smr_up aliases.1 in
          let rev := alloc h1 (PyDict (sound_mode_rev_map_factory h1 s)) in
          (Some sound_mode_raw, with_sound_mode_map_rev s rev.1, rev.2)
      end
  end.

(** Properties. *)
Definition support_sound_mode (s : DenonAVRSoundMode) : option bool :=
  _support_sound_mode s.

(** [self.match_sound_mode(self._sound_mode_raw)]: when the raw mode is
    [None] the first test of [match_sound_mode] returns [None] before the
    argument is looked at. *)
Definition sound_mode (s : DenonAVRSoundMode) (h : Heap)
  : option string * DenonAVRSoundMode * Heap :=
  match _sound_mode_raw s with
  | None => (None, s, h)
  | Some raw => match_sound_mode s h raw
  end.

Definition sound_mode_list (s : DenonAVRSoundMode) (h : Heap) : list string :=
  (odict_entries h (_sound_mode_map s)).*1.

Definition sound_mode_raw (s : DenonAVRSoundMode) : option string :=
  _sound_mode_raw s.

(** [deepcopy] of the entries of an [OrderedDict] of lists: every alias list
    is copied into a new object, once ([memo] maps the lists copied so far to
    their copies). *)
Fixpoint deepcopy_entries (memo : gmap nat nat) (h : Heap)
    (es : list (string * loc)) : list (string * loc) * Heap :=
  match es with
  | [] => ([], h)
  | (k, v) :: rest =>
      match memo !! v with
      | Some v' =>
          let r := deepcopy_entries memo h rest in ((k, v') :: r.1, r.2)
      | None =>
          let c := alloc h (PyList (list_elems h v)) in
          let r := deepcopy_entries (<[v := c.1]> memo) c.2 rest in
          ((k, c.1) :: r.1, r.2)
      end
  end.

Definition deepcopy_odict (h : Heap) (d : loc) : loc * Heap :=
  let y := alloc h (PyOrderedDict []) in
  let r := deepcopy_entries ∅ y.2 (odict_entries h d) in
  (y.1, <[y.1 := PyOrderedDict r.1]> r.2).

Definition deepcopy_dict (h : Heap) (d : loc) : loc * Heap :=
  alloc h (PyDict (dict_table h d)).

Definition sound_mode_map (s : DenonAVRSoundMode) (h : Heap) : loc * Heap :=
  deepcopy_odict h (_sound_mode_map s).

Definition sound_mode_map_rev (s : DenonAVRSoundMode) (h : Heap) : loc * Heap :=
  deepcopy_dict h (_sound_mode_map_rev s).

(** Coroutines of the class. *)
Definition _async_set_all_zone_stereo (zst_on : bool) : Coroutine unit :=
  (s <- get_self ;;
   let command_url := command_set_all_zone_stereo (urls (_device s)) in
   let command_url :=
     if zst_on then command_url +:+ "ZST ON" else command_url +:+ "ZST OFF" in
   await (async_get_command command_url))%coro.

Definition async_update_sound_mode (global_update : bool)
    (cache_id : option nat) : Coroutine unit :=
  (s <- get_self ;;
   match use_avr_2016_update (_device s) with
   | Some true =>
       await (async_update_attrs_appcommand appcommand_attrs global_update
                cache_id)
   | Some false =>
       let urls := [status (urls (_device s)); mainzone (urls (_device s))] in
       match _support_sound_mode s with
       | Some false => ret tt
       | _ =>
           (* the try statement answers whether control falls out of it *)
           falls_through <-
             try_except_AvrProcessingError
               (await (async_update_attrs_status_xml status_xml_attrs_01 urls
                         cache_id) ;;
                ret true)
               (try_except_AvrProcessingError
                  (await (async_update_attrs_status_xml status_xml_attrs_02
                            urls cache_id) ;;
                   ret true)
                  (set_self (λ s, with_support_sound_mode s (Some false)) ;;
                   ret false)) ;;
           if falls_through : bool
           then set_self (λ s, with_support_sound_mode s (Some true))
           else ret tt
       end
   | None =>
       raise (AvrProcessingError
                "Device is not setup correctly, update method not set")
   end)%coro.

Definition async_setup : Coroutine unit :=
  (foldr (λ tag k, add_appcommand_update_tag tag ;; k) (ret tt)
     appcommand_attrs ;;
   s <- get_self ;;
   match receiver (_device s) with
   | AVR_X | AVR_X_2016 =>
       set_self (λ s, with_support_sound_mode s (Some true))
   | AVR => await (async_update_sound_mode false None)
   end ;;
   set_self (λ s, with_is_setup s true))%coro.

Definition async_update (global_update : bool) (cache_id : option nat)
  : Coroutine unit :=
  (s <- get_self ;;
   (if _is_setup s then ret tt else await async_setup) ;;
   await (async_update_sound_mode global_update cache_id))%coro.

(** Reading the property [self.sound_mode] inside a coroutine. *)
Definition self_sound_mode : Coroutine (option string) := on_self sound_mode.

Definition async_set_sound_mode (sound_mode : string) : Coroutine unit :=
  (if decide (sound_mode = ALL_ZONE_STEREO) then
     await (_async_set_all_zone_stereo true)
   else
     current <- self_sound_mode ;;
     (if decide (current = Some ALL_ZONE_STEREO)
      then not_awaited (_async_set_all_zone_stereo false)
      else ret tt) ;;
     (* For selection of sound mode other names then at receiving sound
        modes have to be used *)
     s <- get_self ;;
     let command_url := command_sel_sound_mode (urls (_device s)) +:+ sound_mode in
     await (async_get_command command_url))%coro.

(** ** Well-formed states *)

Definition is_list (h : Heap) (l : loc) : bool :=
  match h !! l with Some (PyList _) => true | _ => false end.

Definition is_dict (h : Heap) (l : loc) : bool :=
  match h !! l with Some (PyDict _) => true | _ => false end.

(** The mode map is an [OrderedDict] (its keys are pairwise different) whose
    values are lists; this is what the attrs validator of [_sound_mode_map]
    checks. *)
Definition mode_map_wf (h : Heap) (d : loc) : bool :=
  match h !! d with
  | Some (PyOrderedDict es) =>
      bool_decide (NoDup es.*1) && forallb (λ e, is_list h e.2) es
  | _ => false
  end.

Definition resolver_wf (h : Heap) (s : DenonAVRSoundMode) : bool :=
  mode_map_wf h (_sound_mode_map s) && is_dict h (_sound_mode_map_rev s).

(** The reverse map is the one the factory builds from the mode map as it is
    now. *)
Definition rev_in_sync (h : Heap) (s : DenonAVRSoundMode) : Prop :=
  dict_table h (_sound_mode_map_rev s) = sound_mode_rev_map_factory h s.

(** No alias of the items has the uppercase form [k]. *)
Definition unknown_alias (items : list (string * list string)) (k : string)
  : Prop :=
  Forall (λ e, Forall (λ r, upper r ≠ k) e.2) items.

(** Every alias of the items with the uppercase form [k] belongs to mode
    [m]. *)
Definition alias_owned_by (items : list (string * list string))
    (k m : string) : Prop :=
  Forall (λ e, Forall (λ r, upper r = k → e.1 = m) e.2) items.

(** Section 3 of the specification: every alias registered under a mode is
    sent to that mode by the reverse map. *)
Definition rev_index_invariant (h : Heap) (s : DenonAVRSoundMode) : Prop :=
  ∀ m l r, (m, l) ∈ mode_map_items h (_sound_mode_map s) → r ∈ l →
           dict_table h (_sound_mode_map_rev s) !! upper r = Some m.

#[global] Instance unknown_alias_dec items k : Decision (unknown_alias items k).
Proof. unfold unknown_alias. apply _. Defined.

#[global] Instance alias_owned_by_dec items k m : Decision (alias_owned_by items k m).
Proof. unfold alias_owned_by. apply _. Defined.

(** ** Sample data

    The theorems hold for every table [SOUND_MODE_MAPPING]; the examples run
    on a small one, stored at location [0]. *)

Definition sample_urls : Urls :=
  {| status := "/goform/formMainZone_MainZoneXmlStatus.xml";
     mainzone := "/goform/formMainZone_MainZoneXml.xml";
     command_sel_sound_mode := "/goform/formiPhoneAppDirect.xml?MS";
     command_set_all_zone_stereo := "/goform/formiPhoneAppDirect.xml?MN" |}.

(** A receiver on the status-page API whose status page reports the raw
    sound mode [raw] and which accepts every command. *)
Definition sample_device (raw : string) : Device :=
  {| receiver := AVR; use_avr_2016_update := Some false; urls := sample_urls;
     api := λ _ c, match c with
                   | StatusXmlUpdate _ _ _ => Fetched (Some raw)
                   | _ => Fetched None
                   end |}.

Definition sample_heap : Heap :=
  {[ 0 := PyOrderedDict [("MUSIC", 1); ("STEREO", 2); ("ALL ZONE STEREO", 3)];
     1 := PyList ["PLII MUSIC"; "DTS NEO:6 MUSIC"];
     2 := PyList ["STEREO"];
     3 := PyList ["ALL ZONE STEREO"] ]}.

Definition start (s : DenonAVRSoundMode) (h : Heap) : State :=
  {| self := s; heap := h; calls := []; update_tags := [] |}.

(** A resolver created on the sample table. *)
Definition fresh_resolver (raw : string) : State :=
  let r := sound_mode_factory 0 (sample_device raw) sample_heap in
  start r.1 r.2.

(** The same resolver after one [async_update]. *)
Definition updated_resolver (raw : string) : State :=
  (async_update false None (fresh_resolver raw)).2.

(** A device whose update method was never chosen. *)
Definition unset_device : Device :=
  {| receiver := AVR; use_avr_2016_update := None; urls := sample_urls;
     api := λ _ _, Fetched None |}.

(** A receiver on the status-page API whose pages have neither sound mode
    tag. *)
Definition silent_device : Device :=
  {| receiver := AVR; use_avr_2016_update := Some false; urls := sample_urls;
     api := λ _ c, match c with
                   | StatusXmlUpdate _ _ _ =>
                       Failed (AvrProcessingError "attribute not found")
                   | _ => Fetched None
                   end |}.

Definition silent_resolver : State :=
  let r := sound_mode_factory 0 silent_device sample_heap in
  start r.1 r.2.

(** Several updates in a row. *)
Fixpoint async_update_sound_mode_seq (args : list (bool * option nat))
  : Coroutine unit :=
  match args with
  | [] => ret tt
  | a :: rest =>
      (await (async_update_sound_mode a.1 a.2) ;;
       async_update_sound_mode_seq rest)%coro
  end.

(** No two modes of the items share an alias, uppercase forms compared. *)
Definition aliases_unambiguous (items : list (string * list string)) : Prop :=
  Forall (λ e, Forall (λ r, alias_owned_by items (upper r) e.1) e.2) items.

#[global] Instance aliases_unambiguous_dec items : Decision (aliases_unambiguous items).
Proof. unfold aliases_unambiguous. apply _. Defined.

(** Two resolvers of one process, as [sound_mode_factory] makes them for two
    zones or two receivers.  Both are created from the one object
    [SOUND_MODE_MAPPING]; the device of the first reports the raw sound mode
    "Dolby Foo". *)
Definition two_resolvers : DenonAVRSoundMode * DenonAVRSoundMode * Heap :=
  let a := sound_mode_factory 0 (sample_device "Dolby Foo") sample_heap in
  let b := sound_mode_factory 0 (sample_device "STEREO") a.2 in
  (a.1, b.1, b.2).

(** The first resolver is updated and its [sound_mode] property is read. *)
Definition first_resolver_read : option string * DenonAVRSoundMode * Heap :=
  let st := (async_update false None
               (start two_resolvers.1.1 two_resolvers.2)).2 in
  sound_mode (self st) (heap st).

(** ** What a caller can do with the object an accessor returned

    The caller holds the returned dictionary and reaches the lists stored in
    it, nothing else of the resolver.  A statement that raises ([KeyError],
    [IndexError]) changes nothing. *)

Inductive Mutation :=
  | SetItem (key : string) (value : list string)  (* d[key] = [...] *)
  | DelItem (key : string)                        (* d.pop(key, None) *)
  | Clear                                         (* d.clear() *)
  | ShareItem (key other : string)                (* d[key] = d[other] *)
  | ListAppend (key : string) (x : string)        (* d[key].append(x) *)
  | ListSetItem (key : string) (i : nat) (x : string)  (* d[key][i] = x *)
  | ListClear (key : string).                     (* d[key].clear() *)

Definition mutate_odict (d : loc) (h : Heap) (m : Mutation) : Heap :=
  let es := odict_entries h d in
  match m with
  | SetItem k v =>
      let a := alloc h (PyList v) in odict_store a.2 d k a.1
  | DelItem k => <[d := PyOrderedDict (filter (λ e, e.1 ≠ k) es)]> h
  | Clear => <[d := PyOrderedDict []]> h
  | ShareItem k other =>
      match odict_getitem es other with
      | Some v => odict_store h d k v
      | None => h
      end
  | ListAppend k x =>
      match odict_getitem es k with
      | Some v => <[v := PyList (list_elems h v ++ [x])]> h
      | None => h
      end
  | ListSetItem k i x =>
      match odict_getitem es k with
      | Some v => <[v := PyList (<[i := x]> (list_elems h v))]> h
      | None => h
      end
  | ListClear k =>
      match odict_getitem es k with
      | Some v => <[v := PyList []]> h
      | None => h
      end
  end.

Inductive DictMutation :=
  | DictSetItem (key value : string)              (* d[key] = value *)
  | DictDelItem (key : string)                    (* d.pop(key, None) *)
  | DictClear.                                    (* d.clear() *)

Definition mutate_dict (d : loc) (h : Heap) (m : DictMutation) : Heap :=
  let t := dict_table h d in
  match m with
  | DictSetItem k v => <[d := PyDict (<[k := v]> t)]> h
  | DictDelItem k => <[d := PyDict (delete k t)]> h
  | DictClear => <[d := PyDict ∅]> h
  end.

(** The dictionary [d] and the lists stored in it are objects the heap [h0]
    did not have, and every object of [h0] is in [h] as it was. *)
Definition separate_from (h0 h : Heap) (d : loc) : Prop :=
  h0 ⊆ h ∧ h0 !! d = None ∧ Forall (λ e, h0 !! e.2 = None) (odict_entries h d).

(** ** One resolver and its caller

    What the owner of a resolver can do with it: run its coroutines, call
    [match_sound_mode], read its properties, and change the copies the two
    map accessors return. *)

Inductive Operation :=
  | AsyncSetup
  | AsyncUpdate (global_update : bool) (cache_id : option nat)
  | AsyncUpdateSoundMode (global_update : bool) (cache_id : option nat)
  | AsyncSetSoundMode (sound_mode : string)
  | MatchSoundMode (sound_mode_raw : string)
  | ReadSoundMode
  | ReadSoundModeMap (then_do : list Mutation)
  | ReadSoundModeMapRev (then_do : list DictMutation).

Definition with_heap (st : State) (h : Heap) : State :=
  {| self := self st; heap := h; calls := calls st;
     update_tags := update_tags st |}.

Definition run (st : State) (op : Operation) : State :=
  match op with
  | AsyncSetup => (async_setup st).2
  | AsyncUpdate g c => (async_update g c st).2
  | AsyncUpdateSoundMode g c => (async_update_sound_mode g c st).2
  | AsyncSetSoundMode m => (async_set_sound_mode m st).2
  | MatchSoundMode x => (on_self (λ s h, match_sound_mode s h x) st).2
  | ReadSoundMode => (on_self sound_mode st).2
  | ReadSoundModeMap ms =>
      let copy := sound_mode_map (self st) (heap st) in
      with_heap st (foldl (mutate_odict copy.1) copy.2 ms)
  | ReadSoundModeMapRev ms =>
      let copy := sound_mode_map_rev (self st) (heap st) in
      with_heap st (foldl (mutate_dict copy.1) copy.2 ms)
  end.

(** A coroutine that leaves the heap alone and does not rebind the two maps
    of the resolver. *)
Definition keeps_maps {A} (c : Coroutine A) : Prop :=
  ∀ st, heap (c st).2 = heap st ∧
        _sound_mode_map (self (c st).2) = _sound_mode_map (self st) ∧
        _sound_mode_map_rev (self (c st).2) = _sound_mode_map_rev (self st).

(** What every state of a resolver alone in its process satisfies. *)
Definition resolver_ok (st : State) : Prop :=
  resolver_wf (heap st) (self st) ∧ rev_in_sync (heap st) (self st) ∧
  aliases_unambiguous (mode_map_items (heap st) (_sound_mode_map (self st))).

(** A device no request to which succeeds. *)
Definition never_answers (device : Device) : Prop :=
  ∀ cs c, ∃ e, api device cs c = Failed e.

(** A coroutine that, run against such a device, leaves the stored raw
    sound mode as it was. *)
Definition keeps_raw {A} (c : Coroutine A) : Prop :=
  ∀ st, never_answers (_device (self st)) →
        _sound_mode_raw (self (c st).2) = _sound_mode_raw (self st) ∧
        _device (self (c st).2) = _device (self st).

(** ** Vocabulary for the further properties *)




(** A receiver on the status-page API whose pages have the second sound mode
    tag only. *)
Definition fallback_device (raw : string) : Device :=
  {| receiver := AVR; use_avr_2016_update := Some false; urls := sample_urls;
     api := λ _ c,
       match c with
       | StatusXmlUpdate [(_, "./SurrMode/value")] _ _ => Fetched (Some raw)
       | StatusXmlUpdate _ _ _ =>
           Failed (AvrProcessingError "attribute not found")
       | _ => Fetched None
       end |}.

(** A receiver that cannot be reached. *)
Definition offline_device : Device :=
  {| receiver := AVR; use_avr_2016_update := Some false; urls := sample_urls;
     api := λ _ _, Failed (OtherError "AvrNetworkError") |}.

(** A receiver of the AVR-X 2016 family on the AppCommand API. *)
Definition appcommand_device (raw : string) : Device :=
  {| receiver := AVR_X_2016; use_avr_2016_update := Some true;
     urls := sample_urls; api := λ _ _, Fetched (Some raw) |}.

Definition resolver_of (device : Device) : State :=
  let r := sound_mode_factory 0 device sample_heap in
  start r.1 r.2.

(** The calls [async_update_sound_mode] can make. *)
Definition status_pages (device : Device) : list string :=
  [status (urls device); mainzone (urls device)].

Definition first_lookup (device : Device) (cache_id : option nat) : Call :=
  StatusXmlUpdate status_xml_attrs_01 (status_pages device) cache_id.

Definition second_lookup (device : Device) (cache_id : option nat) : Call :=
  StatusXmlUpdate status_xml_attrs_02 (status_pages device) cache_id.

(** The state after an update that stored [value] and found the sound mode
    supported, [cs] being the calls made. *)
Definition after_lookup (st : State) (value : option string) (cs : list Call)
  : State :=
  {| self := with_support_sound_mode (with_sound_mode_raw (self st) value)
               (Some true);
     heap := heap st; calls := calls st ++ cs;
     update_tags := update_tags st |}.

(** Closed facts on concrete data are settled by evaluation. *)
Ltac by_decide :=
  match goal with
  | |- ?P =>
      let d := constr:(_ : Decision P) in
      apply (@bool_decide_unpack P d); vm_compute; exact I
  end.

Ltac by_evaluation :=
  first [ vm_compute; reflexivity | vm_compute; discriminate | by_decide ].

(** ** Facts on strings *)

Lemma upper_char_idemp c : upper_char (upper_char c) = upper_char c.
Proof. destruct c as [[] [] [] [] [] [] [] []]; reflexivity. Qed.

Lemma upper_idemp s : upper (upper s) = upper s.
Proof.
  induction s as [|c s IH]; simpl; [done|].
  by rewrite upper_char_idemp, IH.
Qed.

Example upper_mixed_case : upper "Dolby Foo +ds:7.1" = "DOLBY FOO +DS:7.1".
Proof. reflexivity. Qed.

Example rstrip_trailing_only :
  rstrip_string (Some "  Multi Ch In  ") = Some "  Multi Ch In".
Proof. reflexivity. Qed.

(** ** Facts on the reverse map *)

Lemma add_aliases_lookup m (l : list string) (acc : gmap string string) k :
  foldl (λ rev raw_mode, <[upper raw_mode := m]> rev) acc l !! k =
  if decide (k ∈ upper <$> l) then Some m else acc !! k.
Proof.
  revert acc. induction l as [|r l IH]; intros acc.
  - done.
  - rewrite fmap_cons. cbn [foldl]. rewrite IH.
    destruct (decide (k ∈ upper <$> l)) as [Hin|Hnin].
    + rewrite decide_True; [done | by apply elem_of_cons; right].
    + destruct (decide (upper r = k)) as [<-|Hne].
      * rewrite decide_True by (apply elem_of_cons; by left).
        by rewrite lookup_insert_eq.
      * rewrite decide_False by (intros [?|?]%elem_of_cons; congruence).
        by rewrite lookup_insert_ne.
Qed.

Lemma rev_map_add_entry_lookup acc e k :
  rev_map_add_entry acc e !! k =
  if decide (k ∈ upper <$> e.2) then Some e.1 else acc !! k.
Proof. apply add_aliases_lookup. Qed.

Lemma rev_map_of_items_snoc items e :
  rev_map_of_items (items ++ [e]) = rev_map_add_entry (rev_map_of_items items) e.
Proof. unfold rev_map_of_items. by rewrite foldl_snoc. Qed.

Lemma rev_map_of_items_unknown items k :
  unknown_alias items k → rev_map_of_items items !! k = None.
Proof.
  unfold unknown_alias.
  induction items as [|e items IH] using rev_ind; intros Hun.
  - done.
  - rewrite Forall_app, Forall_singleton in Hun. destruct Hun as [Hun He].
    rewrite rev_map_of_items_snoc, rev_map_add_entry_lookup.
    case_decide as Hk; [|by apply IH].
    apply list_elem_of_fmap in Hk as (r & -> & Hr).
    rewrite Forall_forall in He. by destruct (He r Hr).
Qed.

Lemma rev_map_of_items_None items k :
  rev_map_of_items items !! k = None → unknown_alias items k.
Proof.
  unfold unknown_alias.
  induction items as [|e items IH] using rev_ind; intros Hk.
  - constructor.
  - rewrite rev_map_of_items_snoc, rev_map_add_entry_lookup in Hk.
    case_decide as Hin; [done|].
    rewrite Forall_app, Forall_singleton. split; [by apply IH|].
    apply Forall_forall. intros r Hr <-.
    apply Hin, list_elem_of_fmap. eauto.
Qed.

Lemma rev_map_of_items_owned items m l r :
  (m, l) ∈ items → r ∈ l → alias_owned_by items (upper r) m →
  rev_map_of_items items !! upper r = Some m.
Proof.
  unfold alias_owned_by.
  induction items as [|e items IH] using rev_ind; intros Hin Hr Hown.
  - by apply elem_of_nil in Hin.
  - rewrite Forall_app, Forall_singleton in Hown. destruct Hown as [Hown He].
    rewrite rev_map_of_items_snoc, rev_map_add_entry_lookup.
    case_decide as Hk.
    + apply list_elem_of_fmap in Hk as (r' & Heq & Hr').
      rewrite Forall_forall in He. f_equal. by apply (He r').
    + apply IH; [|done..].
      apply elem_of_app in Hin as [?|Hin]; [done|].
      apply list_elem_of_singleton in Hin as <-.
      destruct Hk. apply list_elem_of_fmap. eauto.
Qed.

(** When two modes share an alias the later one gets it. *)
Example rev_map_of_items_later_wins :
  rev_map_of_items [("MUSIC", ["Neo:6"]); ("MOVIE", ["NEO:6"; "cinema"])] =
  {[ "NEO:6" := "MOVIE"; "CINEMA" := "MOVIE" ]}.
Proof. by_evaluation. Qed.

Lemma rev_map_of_items_Some items k m :
  rev_map_of_items items !! k = Some m →
  ∃ l r, (m, l) ∈ items ∧ r ∈ l ∧ upper r = k.
Proof.
  induction items as [|e items IH] using rev_ind; intros Hk.
  - done.
  - rewrite rev_map_of_items_snoc, rev_map_add_entry_lookup in Hk.
    case_decide as Hin.
    + apply list_elem_of_fmap in Hin as (r & -> & Hr).
      destruct e as [m' l]. simpl in *. simplify_eq.
      exists l, r. split; [|done]. apply elem_of_app. right.
      by apply list_elem_of_singleton.
    + destruct (IH Hk) as (l & r & ? & ? & ?). exists l, r.
      split; [|done]. apply elem_of_app. by left.
Qed.

(** ** Facts on [OrderedDict] entries *)

Lemma odict_setitem_keys {V} (es : list (string * V)) k v :
  (odict_setitem es k v).*1 =
  if decide (k ∈ es.*1) then es.*1 else (es.*1 ++ [k])%list.
Proof.
  induction es as [|[k' v'] es IH].
  - done.
  - cbn [odict_setitem]. rewrite fmap_cons.
    destruct (decide (k' = k)) as [->|Hne].
    + rewrite fmap_cons. simpl. rewrite decide_True; [done | apply elem_of_cons; by left].
    + rewrite fmap_cons, IH. simpl. destruct (decide (k ∈ es.*1)) as [Hin|Hnin].
      * rewrite decide_True; [done | apply elem_of_cons; by right].
      * rewrite decide_False; [done|].
        intros [?|?]%elem_of_cons; congruence.
Qed.

Lemma odict_setitem_NoDup {V} (es : list (string * V)) k v :
  NoDup es.*1 → NoDup (odict_setitem es k v).*1.
Proof.
  intros Hnd. rewrite odict_setitem_keys. case_decide as Hk; [done|].
  apply NoDup_app. split_and!; [done| |apply NoDup_singleton].
  intros k' Hk' ->%list_elem_of_singleton. done.
Qed.

Lemma odict_setitem_elem_of {V} (es : list (string * V)) k v e :
  e ∈ odict_setitem es k v → e = (k, v) ∨ e ∈ es.
Proof.
  induction es as [|[k' v'] es IH]; simpl.
  - intros ->%list_elem_of_singleton. by left.
  - case_decide as Hk.
    + intros [->|?]%elem_of_cons; [by left|]. right. apply elem_of_cons. by right.
    + intros [->|He]%elem_of_cons.
      * right. apply elem_of_cons. by left.
      * destruct (IH He) as [->|?]; [by left|]. right. apply elem_of_cons. by right.
Qed.

Lemma odict_setitem_new {V} (es : list (string * V)) k v :
  (k, v) ∈ odict_setitem es k v.
Proof.
  induction es as [|[k' v'] es IH]; simpl.
  - by apply list_elem_of_singleton.
  - case_decide; apply elem_of_cons; [by left | by right].
Qed.

Lemma odict_setitem_getitem {V} (es : list (string * V)) k v :
  odict_getitem (odict_setitem es k v) k = Some v.
Proof.
  induction es as [|[k' v'] es IH]; simpl.
  - by rewrite decide_True.
  - destruct (decide (k' = k)) as [->|Hne]; simpl.
    + by rewrite decide_True.
    + by rewrite decide_False.
Qed.

Lemma odict_setitem_fmap {V W} (f g : V → W) (es : list (string * V)) k v :
  Forall (λ e, f e.2 = g e.2) es →
  (λ e, (e.1, f e.2)) <$> odict_setitem es k v =
  odict_setitem ((λ e, (e.1, g e.2)) <$> es) k (f v).
Proof.
  induction 1 as [|[k' v'] es Hf Hes IH].
  - done.
  - rewrite fmap_cons. cbn [odict_setitem fst snd].
    destruct (decide (k' = k)) as [->|Hne]; rewrite fmap_cons.
    + f_equal. apply Forall_fmap_ext_1.
      eapply Forall_impl; [exact Hes|]. intros e He. simpl. by rewrite He.
    + simpl in Hf. rewrite IH. cbn [fst snd]. by rewrite Hf.
Qed.

(** ** Facts on the heap *)

Lemma alloc_fresh h o : h !! (alloc h o).1 = None.
Proof. apply not_elem_of_dom, is_fresh. Qed.

Lemma alloc_lookup_new h o : (alloc h o).2 !! (alloc h o).1 = Some o.
Proof. apply lookup_insert_eq. Qed.

Lemma alloc_subseteq h o : h ⊆ (alloc h o).2.
Proof. apply insert_subseteq, (alloc_fresh h o). Qed.

Lemma list_elems_weaken (h h' : gmap nat pyobj) l :
  h ⊆ h' → is_list h l → list_elems h' l = list_elems h l.
Proof.
  unfold is_list, list_elems. intros Hsub Hl.
  destruct (h !! l) as [o|] eqn:E; [|done].
  by rewrite (lookup_weaken _ _ _ _ E Hsub).
Qed.

Lemma is_list_weaken (h h' : gmap nat pyobj) l :
  h ⊆ h' → is_list h l → is_list h' l.
Proof.
  unfold is_list. intros Hsub Hl.
  destruct (h !! l) as [o|] eqn:E; [|done].
  by rewrite (lookup_weaken _ _ _ _ E Hsub).
Qed.

Lemma is_dict_weaken (h h' : gmap nat pyobj) l :
  h ⊆ h' → is_dict h l → is_dict h' l ∧ dict_table h' l = dict_table h l.
Proof.
  unfold is_dict, dict_table. intros Hsub Hl.
  destruct (h !! l) as [o|] eqn:E; [|done].
  by rewrite (lookup_weaken _ _ _ _ E Hsub).
Qed.

Lemma mode_map_wf_inv h d :
  mode_map_wf h d →
  ∃ es, h !! d = Some (PyOrderedDict es) ∧ NoDup es.*1 ∧
        Forall (λ e, is_list h e.2) es.
Proof.
  unfold mode_map_wf. destruct (h !! d) as [[| es |]|]; try done.
  intros [Hnd Hall]%andb_True. exists es. split_and!; [done| |].
  - by apply bool_decide_unpack in Hnd.
  - apply Forall_forall. intros e He.
    apply Is_true_true in Hall. rewrite forallb_forall in Hall.
    apply Is_true_true, Hall. by apply list_elem_of_In.
Qed.

Lemma mode_map_wf_intro (h : gmap nat pyobj) d es :
  h !! d = Some (PyOrderedDict es) → NoDup es.*1 →
  Forall (λ e, is_list h e.2) es → mode_map_wf h d.
Proof.
  unfold mode_map_wf. intros -> Hnd Hall. apply andb_True. split.
  - by apply bool_decide_pack.
  - apply Is_true_true, forallb_forall. intros e He%list_elem_of_In.
    rewrite Forall_forall in Hall. by apply Is_true_true, Hall.
Qed.

(** A larger heap shows the same mode map. *)
Lemma mode_map_weaken (h h' : gmap nat pyobj) d :
  h ⊆ h' → mode_map_wf h d →
  mode_map_wf h' d ∧ mode_map_items h' d = mode_map_items h d ∧
  odict_entries h' d = odict_entries h d.
Proof.
  intros Hsub (es & Hd & Hnd & Hall)%mode_map_wf_inv.
  pose proof (lookup_weaken _ _ _ _ Hd Hsub) as Hd'.
  split_and!.
  - apply (mode_map_wf_intro _ _ es); [done..|].
    eapply Forall_impl; [exact Hall|]. intros e. by apply is_list_weaken.
  - unfold mode_map_items, odict_entries. rewrite Hd, Hd'.
    apply Forall_fmap_ext_1. eapply Forall_impl; [exact Hall|].
    intros e He. simpl. f_equal. by apply list_elems_weaken.
  - unfold odict_entries. by rewrite Hd, Hd'.
Qed.

(** ** Self-extension of the mode map *)

(** What [self._sound_mode_map[k] = [k]] leaves. *)
Lemma odict_store_new_list (h : gmap nat pyobj) d k :
  mode_map_wf h d →
  let aliases := alloc h (PyList [k]) in
  let h1 := odict_store aliases.2 d k aliases.1 in
  mode_map_wf h1 d ∧
  mode_map_items h1 d = odict_setitem (mode_map_items h d) k [k] ∧
  (∀ l, l ≠ d → l ≠ aliases.1 → h1 !! l = h !! l).
Proof.
  intros Hwf. pose proof Hwf as (es & Hd & Hnd & Hall)%mode_map_wf_inv.
  pose proof (alloc_fresh h (PyList [k])) as Hfresh.
  pose proof (alloc_subseteq h (PyList [k])) as Hsub.
  pose proof (alloc_lookup_new h (PyList [k])) as Hnew.
  destruct (alloc h (PyList [k])) as [a h'] eqn:Ealloc. simpl in *.
  assert (a ≠ d) as Had by congruence.
  destruct (mode_map_weaken _ _ d Hsub Hwf) as (_ & _ & Hes).
  assert (odict_entries h d = es) as Hes0 by (unfold odict_entries; by rewrite Hd).
  unfold odict_store. rewrite Hes, Hes0.
  set (h1 := <[d := _]> h').
  assert (odict_entries h1 d = odict_setitem es k a) as Hes1.
  { unfold odict_entries, h1. by rewrite lookup_insert_eq. }
  assert (Forall (λ e, list_elems h1 e.2 = list_elems h e.2 ∧ is_list h1 e.2) es)
    as Hold.
  { eapply Forall_impl; [exact Hall|]. intros e He. simpl in *.
    assert (e.2 ≠ d) as Hed.
    { intros Heq. unfold is_list in He. by rewrite Heq, Hd in He. }
    unfold list_elems, is_list, h1. rewrite lookup_insert_ne by done.
    split.
    - by apply list_elems_weaken.
    - by apply (is_list_weaken h h'). }
  assert (h1 !! a = Some (PyList [k])) as Ha.
  { unfold h1. by rewrite lookup_insert_ne. }
  split_and!.
  - apply (mode_map_wf_intro _ _ (odict_setitem es k a)).
    + apply lookup_insert_eq.
    + by apply odict_setitem_NoDup.
    + apply Forall_forall. intros e [->|He]%odict_setitem_elem_of.
      * unfold is_list. simpl. by rewrite Ha.
      * rewrite Forall_forall in Hold. by apply Hold.
  - unfold mode_map_items. rewrite Hes0, Hes1.
    rewrite (odict_setitem_fmap (list_elems h1) (list_elems h)).
    + f_equal. unfold list_elems. by rewrite Ha.
    + eapply Forall_impl; [exact Hold|]. by intros e [? _].
  - intros l Hld Hla. unfold h1. rewrite lookup_insert_ne by done.
    assert (h' = <[a := PyList [k]]> h) as -> by (unfold alloc in Ealloc; congruence).
    by rewrite lookup_insert_ne.
Qed.


Lemma rev_map_of_items_extended items k :
  unknown_alias items k → upper k = k →
  rev_map_of_items (odict_setitem items k [k]) !! k = Some k.
Proof.
  intros Hun Hk.
  pose proof (rev_map_of_items_owned (odict_setitem items k [k]) k [k] k) as H.
  rewrite Hk in H. apply H.
  - apply odict_setitem_new.
  - by apply list_elem_of_singleton.
  - apply Forall_forall. intros e [->|He]%odict_setitem_elem_of.
    + by apply Forall_singleton.
    + unfold unknown_alias in Hun. rewrite Forall_forall in Hun.
      eapply Forall_impl; [exact (Hun e He)|]. simpl. congruence.
Qed.

Lemma match_sound_mode_hit s h x m :
  _sound_mode_raw s ≠ None →
  dict_table h (_sound_mode_map_rev s) !! upper x = Some m →
  match_sound_mode s h x = (Some m, s, h).
Proof.
  intros Hraw Hm. unfold match_sound_mode.
  destruct (_sound_mode_raw s); [|done]. by rewrite Hm.
Qed.

Lemma match_sound_mode_miss s h x :
  resolver_wf h s → _sound_mode_raw s ≠ None →
  dict_table h (_sound_mode_map_rev s) !! upper x = None →
  let r := match_sound_mode s h x in
  r.1.1 = Some x ∧
  (∃ rev, r.1.2 = with_sound_mode_map_rev s rev) ∧
  resolver_wf r.2 r.1.2 ∧ rev_in_sync r.2 r.1.2 ∧
  mode_map_items r.2 (_sound_mode_map s) =
    odict_setitem (mode_map_items h (_sound_mode_map s)) (upper x) [upper x].
Proof.
  intros [Hwf Hrev]%andb_True Hraw Hmiss. unfold match_sound_mode.
  destruct (_sound_mode_raw s); [|done]. rewrite Hmiss.
  destruct (odict_store_new_list h (_sound_mode_map s) (upper x) Hwf)
    as (Hwf1 & Hitems1 & _).
  set (h1 := odict_store _ _ _ _) in *.
  set (o := PyDict (sound_mode_rev_map_factory h1 s)).
  pose proof (alloc_subseteq h1 o) as Hsub.
  pose proof (alloc_lookup_new h1 o) as Hnew.
  destruct (mode_map_weaken _ _ _ Hsub Hwf1) as (Hwf3 & Hitems3 & _).
  cbn [fst snd]. split_and!.
  - done.
  - eauto.
  - apply andb_True. split; [done|]. unfold is_dict.
    cbn [_sound_mode_map_rev with_sound_mode_map_rev]. by rewrite Hnew.
  - unfold rev_in_sync, dict_table, sound_mode_rev_map_factory.
    cbn [_sound_mode_map _sound_mode_map_rev with_sound_mode_map_rev].
    by rewrite Hnew, Hitems3.
  - by rewrite Hitems3.
Qed.

(** ** Matching a raw sound mode *)

Lemma rev_in_sync_unknown s h k :
  rev_in_sync h s → unknown_alias (mode_map_items h (_sound_mode_map s)) k →
  dict_table h (_sound_mode_map_rev s) !! k = None.
Proof. intros -> ?. by apply rev_map_of_items_unknown. Qed.

(** C10.  While no raw sound mode is stored, [match_sound_mode] returns
    [None] for every input, registered alias or not, and the [sound_mode]
    property returns [None]; neither changes the resolver or any object of
    the heap, so the mode map is not extended. *)
Theorem match_sound_mode_without_raw s h x :
  _sound_mode_raw s = None →
  match_sound_mode s h x = (None, s, h) ∧ sound_mode s h = (None, s, h).
Proof. intros Hraw. unfold sound_mode, match_sound_mode. by rewrite Hraw. Qed.

Lemma match_sound_mode_without_raw_witness :
  _sound_mode_raw (self (fresh_resolver "STEREO")) = None ∧
  match_sound_mode (self (fresh_resolver "STEREO"))
    (heap (fresh_resolver "STEREO")) "STEREO" =
    (None, self (fresh_resolver "STEREO"), heap (fresh_resolver "STEREO")) ∧
  sound_mode (self (fresh_resolver "STEREO")) (heap (fresh_resolver "STEREO")) =
    (None, self (fresh_resolver "STEREO"), heap (fresh_resolver "STEREO")).
Proof.
  split; [reflexivity|].
  apply (match_sound_mode_without_raw _ _ "STEREO"). reflexivity.
Defined.

(** A resolver that has just been created stores no raw sound mode. *)
Lemma new_DenonAVRSoundMode_raw d device h :
  _sound_mode_raw (new_DenonAVRSoundMode d device h).1 = None.
Proof. reflexivity. Qed.

(** C5, as amended.  Let a raw sound mode be stored and the reverse map be
    in sync with the mode map.  If [r] is an alias registered under mode [m]
    and every alias with the uppercase form of [r] belongs to [m], then
    [match_sound_mode] returns [m] for [r] and for [upper r], and changes
    nothing. *)
Theorem match_sound_mode_registered_alias s h m l r :
  _sound_mode_raw s ≠ None →
  rev_in_sync h s →
  (m, l) ∈ mode_map_items h (_sound_mode_map s) → r ∈ l →
  alias_owned_by (mode_map_items h (_sound_mode_map s)) (upper r) m →
  match_sound_mode s h r = (Some m, s, h) ∧
  match_sound_mode s h (upper r) = (Some m, s, h).
Proof.
  intros Hraw Hsync Hin Hr Hown.
  assert (dict_table h (_sound_mode_map_rev s) !! upper r = Some m) as Hm.
  { rewrite Hsync. by apply (rev_map_of_items_owned _ m l). }
  split; apply match_sound_mode_hit; try done. by rewrite upper_idemp.
Qed.

Lemma match_sound_mode_registered_alias_witness :
  let st := updated_resolver "STEREO" in
  _sound_mode_raw (self st) ≠ None ∧
  rev_in_sync (heap st) (self st) ∧
  match_sound_mode (self st) (heap st) "PLII MUSIC" =
    (Some "MUSIC", self st, heap st) ∧
  match_sound_mode (self st) (heap st) (upper "PLII MUSIC") =
    (Some "MUSIC", self st, heap st).
Proof.
  intros st.
  assert (_sound_mode_raw (self st) ≠ None) as Hraw by by_evaluation.
  assert (rev_in_sync (heap st) (self st)) as Hsync by by_evaluation.
  split_and!; [done..| |];
    apply (match_sound_mode_registered_alias (self st) (heap st) "MUSIC"
             ["PLII MUSIC"; "DTS NEO:6 MUSIC"] "PLII MUSIC");
    try done; by_evaluation.
Defined.

(** C5 as stated fails on a resolver that stores no raw sound mode yet:
    "STEREO" is registered under "STEREO", but the match returns [None]. *)
Lemma match_sound_mode_registered_alias_without_raw :
  let st := fresh_resolver "STEREO" in
  ("STEREO", ["STEREO"]) ∈ mode_map_items (heap st) (_sound_mode_map (self st)) ∧
  (match_sound_mode (self st) (heap st) "STEREO").1.1 ≠ Some "STEREO".
Proof. split; by_evaluation. Qed.

(** C1, as amended.  Let a raw sound mode be stored and the reverse map be
    in sync with the mode map, and let no alias of the mode map have the
    uppercase form of [x].  The first [match_sound_mode s x] returns [x] as it
    was given, and sets the entry [upper x] of the mode map to the list
    [[upper x]]; the reverse map then sends [upper x] to [upper x].  The
    second call returns [upper x] and changes nothing, so the keys of the mode
    map stay pairwise different. *)
Theorem match_sound_mode_unknown s h x :
  resolver_wf h s → rev_in_sync h s → _sound_mode_raw s ≠ None →
  unknown_alias (mode_map_items h (_sound_mode_map s)) (upper x) →
  let first := match_sound_mode s h x in
  let second := match_sound_mode first.1.2 first.2 x in
  first.1.1 = Some x ∧
  mode_map_items first.2 (_sound_mode_map first.1.2) =
    odict_setitem (mode_map_items h (_sound_mode_map s)) (upper x) [upper x] ∧
  odict_getitem (mode_map_items first.2 (_sound_mode_map first.1.2)) (upper x) =
    Some [upper x] ∧
  dict_table first.2 (_sound_mode_map_rev first.1.2) !! upper x =
    Some (upper x) ∧
  second = (Some (upper x), first.1.2, first.2) ∧
  NoDup (sound_mode_list first.1.2 first.2).
Proof.
  intros Hwf Hsync Hraw Hun first.
  pose proof (rev_in_sync_unknown _ _ _ Hsync Hun) as Hmiss.
  destruct (match_sound_mode_miss s h x Hwf Hraw Hmiss)
    as (Hres & [rev Hself] & Hwf' & Hsync' & Hitems).
  fold first in Hres, Hself, Hwf', Hsync', Hitems.
  assert (_sound_mode_map first.1.2 = _sound_mode_map s) as Hmap
    by by rewrite Hself.
  assert (dict_table first.2 (_sound_mode_map_rev first.1.2) !! upper x =
          Some (upper x)) as Hhit.
  { rewrite Hsync'. unfold sound_mode_rev_map_factory. rewrite Hmap, Hitems.
    apply rev_map_of_items_extended; [done | apply upper_idemp]. }
  cbn zeta. rewrite Hmap. split_and!; try done.
  - rewrite Hitems. apply odict_setitem_getitem.
  - apply match_sound_mode_hit; [|done]. by rewrite Hself.
  - apply andb_True in Hwf' as [Hwf' _].
    apply mode_map_wf_inv in Hwf' as (es & Hes & Hnd & _).
    unfold sound_mode_list, odict_entries. by rewrite Hes.
Qed.

Lemma match_sound_mode_unknown_witness :
  let st := updated_resolver "STEREO" in
  let first := match_sound_mode (self st) (heap st) "Dolby Foo" in
  let second := match_sound_mode first.1.2 first.2 "Dolby Foo" in
  unknown_alias (mode_map_items (heap st) (_sound_mode_map (self st)))
    (upper "Dolby Foo") ∧
  first.1.1 = Some "Dolby Foo" ∧
  mode_map_items first.2 (_sound_mode_map first.1.2) =
    [("MUSIC", ["PLII MUSIC"; "DTS NEO:6 MUSIC"]); ("STEREO", ["STEREO"]);
     ("ALL ZONE STEREO", ["ALL ZONE STEREO"]); ("DOLBY FOO", ["DOLBY FOO"])] ∧
  second = (Some "DOLBY FOO", first.1.2, first.2).
Proof.
  intros st first second.
  assert (unknown_alias (mode_map_items (heap st) (_sound_mode_map (self st)))
            (upper "Dolby Foo")) as Hun by by_evaluation.
  destruct (match_sound_mode_unknown (self st) (heap st) "Dolby Foo")
    as (H1 & H2 & _ & _ & H5 & _); [by_evaluation..|done|].
  split_and!; [done | done | | done].
  etrans; [exact H2 | by_evaluation].
Defined.

(** C1 as stated fails: for the unknown raw sound mode "Dolby Foo" the first
    call returns "Dolby Foo", not its uppercase form, and the second call
    returns something else, "DOLBY FOO". *)
Lemma match_sound_mode_unknown_returns_raw :
  let st := updated_resolver "STEREO" in
  let first := match_sound_mode (self st) (heap st) "Dolby Foo" in
  let second := match_sound_mode first.1.2 first.2 "Dolby Foo" in
  _sound_mode_raw (self st) ≠ None ∧
  unknown_alias (mode_map_items (heap st) (_sound_mode_map (self st)))
    (upper "Dolby Foo") ∧
  first.1.1 ≠ Some (upper "Dolby Foo") ∧
  second.1.1 ≠ first.1.1.
Proof. split_and!; by_evaluation. Qed.

(** ** Updating the sound mode *)

(** C4.  When the update method of the device is unset,
    [async_update_sound_mode] raises the error "Device is not setup
    correctly, update method not set" and leaves the state as it was: no call
    reaches the device. *)
Theorem async_update_sound_mode_unset st global_update cache_id :
  use_avr_2016_update (_device (self st)) = None →
  async_update_sound_mode global_update cache_id st =
  (Raise (AvrProcessingError
            "Device is not setup correctly, update method not set"), st).
Proof.
  intros Hflag. unfold async_update_sound_mode, bind, get_self.
  by rewrite Hflag.
Qed.

Lemma async_update_sound_mode_unset_witness :
  let st := start (sound_mode_factory 0 unset_device sample_heap).1
              (sound_mode_factory 0 unset_device sample_heap).2 in
  use_avr_2016_update (_device (self st)) = None ∧
  async_update_sound_mode false None st =
  (Raise (AvrProcessingError
            "Device is not setup correctly, update method not set"), st).
Proof.
  intros st. split; [reflexivity|].
  apply (async_update_sound_mode_unset st false None). reflexivity.
Defined.

Lemma async_update_sound_mode_returns_at_once st global_update cache_id :
  use_avr_2016_update (_device (self st)) = Some false →
  _support_sound_mode (self st) = Some false →
  async_update_sound_mode global_update cache_id st = (Return tt, st).
Proof.
  intros Hflag Hsup. unfold async_update_sound_mode, bind, get_self.
  by rewrite Hflag, Hsup.
Qed.

(** C6.  On the status-page API, once the support flag is [False],
    [async_update_sound_mode] returns at once and leaves the state as it
    was, the list of calls included; so does any number of further
    updates. *)
Theorem async_update_sound_mode_unsupported st global_update cache_id args :
  use_avr_2016_update (_device (self st)) = Some false →
  _support_sound_mode (self st) = Some false →
  async_update_sound_mode global_update cache_id st = (Return tt, st) ∧
  async_update_sound_mode_seq args st = (Return tt, st).
Proof.
  intros Hflag Hsup.
  split; [by apply async_update_sound_mode_returns_at_once|].
  induction args as [|a args IH]; [done|].
  cbn [async_update_sound_mode_seq]. unfold bind, await.
  by rewrite async_update_sound_mode_returns_at_once.
Qed.

(** X28.  Once the resolver is set up, on the status-page API with the
    support flag [False], [async_update] returns at once and leaves the state
    as it was, the list of calls included. *)
Lemma async_update_unsupported st global_update cache_id :
  _is_setup (self st) = true →
  use_avr_2016_update (_device (self st)) = Some false →
  _support_sound_mode (self st) = Some false →
  async_update global_update cache_id st = (Return tt, st).
Proof.
  intros Hsetup Hflag Hsup. unfold async_update, bind, get_self, await.
  rewrite Hsetup. unfold ret.
  by apply async_update_sound_mode_returns_at_once.
Qed.

(** C3.  On the status-page API, when the device answers both status
    lookups with a processing error, [async_update_sound_mode] returns
    normally, the support flag is [False] afterwards, and nothing else of the
    resolver changes, the raw sound mode in particular. *)
Theorem async_update_sound_mode_both_fail st global_update cache_id msg1 msg2 :
  let device := _device (self st) in
  let pages := [status (urls device); mainzone (urls device)] in
  let call1 := StatusXmlUpdate status_xml_attrs_01 pages cache_id in
  let call2 := StatusXmlUpdate status_xml_attrs_02 pages cache_id in
  use_avr_2016_update device = Some false →
  api device (calls st) call1 = Failed (AvrProcessingError msg1) →
  api device (calls st ++ [call1]) call2 = Failed (AvrProcessingError msg2) →
  let r := async_update_sound_mode global_update cache_id st in
  r.1 = Return tt ∧
  _support_sound_mode (self r.2) = Some false ∧
  _sound_mode_raw (self r.2) = _sound_mode_raw (self st) ∧
  self r.2 = with_support_sound_mode (self st) (Some false) ∧
  heap r.2 = heap st.
Proof.
  intros device pages call1 call2 Hflag H1 H2 r.
  subst call1 call2 pages device.
  assert (∃ cs, r = (Return tt,
                     {| self := with_support_sound_mode (self st) (Some false);
                        heap := heap st; calls := cs;
                        update_tags := update_tags st |})) as [cs ->].
  { unfold r, async_update_sound_mode, bind, get_self. rewrite Hflag.
    destruct (_support_sound_mode (self st)) as [[]|] eqn:Hsup.
    1, 3: unfold try_except_AvrProcessingError, await,
        async_update_attrs_status_xml, bind, call_api;
      rewrite H1; unfold record_call at 1 2; cbn [self calls];
      rewrite H2; eexists; reflexivity.
    exists (calls st). unfold ret. f_equal.
    destruct st as [[] ? ? ?]; simpl in *. by rewrite Hsup. }
  done.
Qed.

Lemma async_update_sound_mode_both_fail_witness :
  let r := async_update_sound_mode false None silent_resolver in
  use_avr_2016_update (_device (self silent_resolver)) = Some false ∧
  r.1 = Return tt ∧
  _support_sound_mode (self r.2) = Some false ∧
  _sound_mode_raw (self r.2) = _sound_mode_raw (self silent_resolver).
Proof.
  intros r. split; [reflexivity|].
  destruct (async_update_sound_mode_both_fail silent_resolver false None
              "attribute not found" "attribute not found")
    as (H1 & H2 & H3 & _); [reflexivity..|].
  by split_and!.
Defined.

Lemma async_update_sound_mode_unsupported_witness :
  let st := (async_update_sound_mode false None silent_resolver).2 in
  use_avr_2016_update (_device (self st)) = Some false ∧
  _support_sound_mode (self st) = Some false ∧
  async_update_sound_mode false None st = (Return tt, st) ∧
  async_update_sound_mode_seq [(false, None); (true, Some 7)] st =
    (Return tt, st).
Proof.
  intros st. split; [reflexivity|]. split; [reflexivity|].
  apply (async_update_sound_mode_unsupported st false None
           [(false, None); (true, Some 7)]); reflexivity.
Defined.

(** ** Setting the sound mode *)

Lemma async_get_command_calls url st :
  calls (async_get_command url st).2 = calls st ++ [GetCommand url] ∧
  self (async_get_command url st).2 = self st ∧
  heap (async_get_command url st).2 = heap st.
Proof.
  unfold async_get_command, bind, call_api.
  by destruct (api _ _ _).
Qed.

Lemma _async_set_all_zone_stereo_calls zst_on st :
  let prefix := command_set_all_zone_stereo (urls (_device (self st))) in
  let r := _async_set_all_zone_stereo zst_on st in
  calls r.2 =
    calls st ++
      [GetCommand (prefix +:+ (if zst_on then "ZST ON" else "ZST OFF"))] ∧
  self r.2 = self st ∧ heap r.2 = heap st.
Proof.
  unfold _async_set_all_zone_stereo, bind, get_self, await.
  destruct zst_on; apply async_get_command_calls.
Qed.

Lemma string_length_append p s :
  String.length (p +:+ s) = String.length p + String.length s.
Proof. induction p as [|c p IH]; simpl; [done | by rewrite IH]. Qed.

(** A URL ending in "ZST ON" is not a mode-select URL for the pseudo-mode. *)
Lemma zst_on_url_not_mode_select p1 p2 :
  p1 +:+ "ZST ON" ≠ p2 +:+ ALL_ZONE_STEREO.
Proof.
  unfold ALL_ZONE_STEREO. intros Heq.
  pose proof (f_equal String.length Heq) as Hlen.
  rewrite !string_length_append in Hlen. simpl in Hlen.
  pose proof (String.append_correct2 p1 "ZST ON" 5) as H1.
  pose proof (String.append_correct2 p2 "ALL ZONE STEREO" 14) as H2.
  rewrite Heq in H1.
  replace (5 + String.length p1) with (14 + String.length p2) in H1 by lia.
  rewrite <- H2 in H1. discriminate.
Qed.

(** C7.  [async_set_sound_mode ALL_ZONE_STEREO] makes exactly one call to the
    device, the command whose URL is the all-zone-stereo prefix followed by
    "ZST ON"; this call is not the mode-select command for the same name, and
    neither the resolver nor the heap changes. *)
Theorem async_set_sound_mode_all_zone_stereo st :
  let device := _device (self st) in
  let r := async_set_sound_mode ALL_ZONE_STEREO st in
  calls r.2 =
    calls st ++
      [GetCommand (command_set_all_zone_stereo (urls device) +:+ "ZST ON")] ∧
  GetCommand (command_set_all_zone_stereo (urls device) +:+ "ZST ON") ≠
    GetCommand (command_sel_sound_mode (urls device) +:+ ALL_ZONE_STEREO) ∧
  self r.2 = self st ∧ heap r.2 = heap st.
Proof.
  intros device r.
  destruct (_async_set_all_zone_stereo_calls true st) as (Hc & Hs & Hh).
  unfold r, async_set_sound_mode. rewrite decide_True by done. unfold await.
  split_and!; try done.
  intros Heq. injection Heq as Heq.
  by apply zst_on_url_not_mode_select in Heq.
Qed.

Lemma match_sound_mode_device s h x :
  _device (match_sound_mode s h x).1.2 = _device s.
Proof.
  unfold match_sound_mode. destruct (_sound_mode_raw s); [|done].
  by destruct (dict_table h (_sound_mode_map_rev s) !! upper x).
Qed.

Lemma sound_mode_device s h : _device (sound_mode s h).1.2 = _device s.
Proof.
  unfold sound_mode. destruct (_sound_mode_raw s); [|done].
  apply match_sound_mode_device.
Qed.

(** For every other target the mode-select command is the only call made,
    whatever the current sound mode is. *)
Lemma async_set_sound_mode_other st target :
  target ≠ ALL_ZONE_STEREO →
  calls (async_set_sound_mode target st).2 =
  calls st ++
    [GetCommand (command_sel_sound_mode (urls (_device (self st))) +:+ target)].
Proof.
  intros Hne. unfold async_set_sound_mode. rewrite decide_False by done.
  unfold bind, self_sound_mode, on_self, not_awaited, ret, get_self, await.
  cbn [self heap calls update_tags fst snd].
  set (r := sound_mode (self st) (heap st)).
  assert (_device r.1.2 = _device (self st)) as Hdev by apply sound_mode_device.
  destruct (decide (r.1.1 = Some ALL_ZONE_STEREO));
    cbn [self]; rewrite <- Hdev;
    apply (async_get_command_calls _
             {| self := r.1.2; heap := r.2; calls := calls st;
                update_tags := update_tags st |}).
Qed.

(** C2, at the failing input.  The current sound mode is the all-zone-stereo
    pseudo-mode and another mode is selected: the call of
    [_async_set_all_zone_stereo(False)] is not awaited, so the coroutine
    never runs and the only call that reaches the device is the mode-select
    command; no "ZST OFF" command is issued. *)
Theorem async_set_sound_mode_zst_off_not_issued :
  let st := updated_resolver "ALL ZONE STEREO" in
  let r := async_set_sound_mode "STEREO" st in
  (sound_mode (self st) (heap st)).1.1 = Some ALL_ZONE_STEREO ∧
  r.1 = Return tt ∧
  calls r.2 =
    calls st ++ [GetCommand "/goform/formiPhoneAppDirect.xml?MSSTEREO"] ∧
  GetCommand "/goform/formiPhoneAppDirect.xml?MNZST OFF" ∉ calls r.2.
Proof. split_and!; by_evaluation. Qed.

(** ** The reverse-index invariant *)

Lemma rev_index_invariant_of_sync h s :
  rev_in_sync h s →
  aliases_unambiguous (mode_map_items h (_sound_mode_map s)) →
  rev_index_invariant h s.
Proof.
  intros Hsync Hun m l r Hin Hr. rewrite Hsync.
  apply (rev_map_of_items_owned _ m l); [done..|].
  unfold aliases_unambiguous in Hun. rewrite Forall_forall in Hun.
  specialize (Hun _ Hin). rewrite Forall_forall in Hun. exact (Hun r Hr).
Qed.

Lemma aliases_unambiguous_extend items k :
  aliases_unambiguous items → unknown_alias items k → upper k = k →
  aliases_unambiguous (odict_setitem items k [k]).
Proof.
  unfold aliases_unambiguous, alias_owned_by, unknown_alias.
  rewrite !Forall_forall. intros Hamb Hun Hk e He.
  apply Forall_forall. intros r Hr.
  apply Forall_forall. intros e' He'.
  apply Forall_forall. intros r' Hr' Heq.
  apply odict_setitem_elem_of in He as [->|He];
    apply odict_setitem_elem_of in He' as [->|He']; simpl in *.
  - done.
  - apply list_elem_of_singleton in Hr as ->.
    specialize (Hun _ He'). rewrite Forall_forall in Hun.
    destruct (Hun _ Hr'). congruence.
  - apply list_elem_of_singleton in Hr' as ->.
    specialize (Hun _ He). rewrite Forall_forall in Hun.
    destruct (Hun _ Hr). congruence.
  - specialize (Hamb _ He). rewrite Forall_forall in Hamb.
    specialize (Hamb _ Hr). rewrite Forall_forall in Hamb.
    specialize (Hamb _ He'). rewrite Forall_forall in Hamb.
    exact (Hamb r' Hr' Heq).
Qed.

(** [match_sound_mode] keeps the resolver it runs on well formed, in sync and
    unambiguous, and so keeps its reverse-index invariant. *)
Lemma match_sound_mode_preserves s h x :
  resolver_wf h s → rev_in_sync h s →
  aliases_unambiguous (mode_map_items h (_sound_mode_map s)) →
  let r := match_sound_mode s h x in
  resolver_wf r.2 r.1.2 ∧ rev_in_sync r.2 r.1.2 ∧
  aliases_unambiguous (mode_map_items r.2 (_sound_mode_map r.1.2)) ∧
  rev_index_invariant r.2 r.1.2.
Proof.
  intros Hwf Hsync Hamb r.
  cut (resolver_wf r.2 r.1.2 ∧ rev_in_sync r.2 r.1.2 ∧
       aliases_unambiguous (mode_map_items r.2 (_sound_mode_map r.1.2))).
  { intros (? & ? & ?). split_and!; try done.
    by apply rev_index_invariant_of_sync. }
  destruct (_sound_mode_raw s) as [raw|] eqn:Hraw.
  - destruct (dict_table h (_sound_mode_map_rev s) !! upper x) as [m|] eqn:Hm.
    + unfold r. rewrite (match_sound_mode_hit s h x m); [done| |done].
      by rewrite Hraw.
    + destruct (match_sound_mode_miss s h x) as (_ & [rev Hs] & ? & ? & Hitems);
        [done| by rewrite Hraw |done|].
      fold r in Hs, Hitems |- *. split_and!; try done.
      rewrite Hs. cbn [_sound_mode_map with_sound_mode_map_rev].
      rewrite Hitems. apply aliases_unambiguous_extend; [done| |apply upper_idemp].
      apply rev_map_of_items_None. by rewrite Hsync in Hm.
  - unfold r, match_sound_mode. by rewrite Hraw.
Qed.

(** ** The accessors hand out copies *)

Lemma odict_getitem_elem_of {V} (es : list (string * V)) k v :
  odict_getitem es k = Some v → (k, v) ∈ es.
Proof.
  induction es as [|[k' v'] es IH]; simpl; [done|].
  case_decide as Hk.
  - intros [= ->]. subst. apply elem_of_cons. by left.
  - intros Hv. apply elem_of_cons. right. by apply IH.
Qed.

Lemma odict_entries_insert_list (h : gmap nat pyobj) d v xs :
  odict_entries (<[v := PyList xs]> h) d =
  if decide (v = d) then [] else odict_entries h d.
Proof.
  unfold odict_entries. case_decide as Hv.
  - subst. by rewrite lookup_insert_eq.
  - by rewrite lookup_insert_ne.
Qed.

Lemma separate_from_write_list h0 (h : gmap nat pyobj) d v xs :
  separate_from h0 h d → h0 !! v = None →
  separate_from h0 (<[v := PyList xs]> h) d.
Proof.
  intros (Hsub & Hd & Hes) Hv. split_and!; [|done|].
  - by apply insert_subseteq_r.
  - rewrite odict_entries_insert_list. by case_decide.
Qed.

Lemma separate_from_store h0 (h : gmap nat pyobj) d k v :
  separate_from h0 h d → h0 !! v = None →
  separate_from h0 (odict_store h d k v) d.
Proof.
  intros (Hsub & Hd & Hes) Hv. unfold odict_store. split_and!; [|done|].
  - by apply insert_subseteq_r.
  - unfold odict_entries at 1. rewrite lookup_insert_eq.
    apply Forall_forall. intros e [->|He]%odict_setitem_elem_of; [done|].
    rewrite Forall_forall in Hes. by apply Hes.
Qed.

Lemma separate_from_getitem h0 (h : gmap nat pyobj) d k v :
  separate_from h0 h d → odict_getitem (odict_entries h d) k = Some v →
  h0 !! v = None.
Proof.
  intros (_ & _ & Hes) Hv%odict_getitem_elem_of.
  rewrite Forall_forall in Hes. exact (Hes _ Hv).
Qed.

Lemma mutate_odict_separate h0 h d m :
  separate_from h0 h d → separate_from h0 (mutate_odict d h m) d.
Proof.
  intros Hsep. pose proof Hsep as (Hsub & Hd & Hes).
  destruct m as [k v|k| |k other|k x|k i x|k]; cbn [mutate_odict].
  - assert (h0 !! (alloc h (PyList v)).1 = None) as Hfresh.
    { eapply lookup_weaken_None; [apply alloc_fresh | done]. }
    apply separate_from_store; [|done].
    by apply separate_from_write_list.
  - split_and!; [by apply insert_subseteq_r | done |].
    unfold odict_entries at 1. rewrite lookup_insert_eq.
    apply Forall_forall. intros e [_ He]%list_elem_of_filter.
    rewrite Forall_forall in Hes. by apply Hes.
  - split_and!; [by apply insert_subseteq_r | done |].
    unfold odict_entries. by rewrite lookup_insert_eq.
  - destruct (odict_getitem _ other) as [v|] eqn:Hv; [|done].
    apply separate_from_store; [done|]. by eapply separate_from_getitem.
  - destruct (odict_getitem _ k) as [v|] eqn:Hv; [|done].
    apply separate_from_write_list; [done|]. by eapply separate_from_getitem.
  - destruct (odict_getitem _ k) as [v|] eqn:Hv; [|done].
    apply separate_from_write_list; [done|]. by eapply separate_from_getitem.
  - destruct (odict_getitem _ k) as [v|] eqn:Hv; [|done].
    apply separate_from_write_list; [done|]. by eapply separate_from_getitem.
Qed.

Lemma mutate_dict_separate h0 (h : gmap nat pyobj) d m :
  h0 ⊆ h → h0 !! d = None → h0 ⊆ mutate_dict d h m.
Proof. intros Hsub Hd. destruct m; by apply insert_subseteq_r. Qed.

Lemma foldl_mutate_odict_separate h0 h d ms :
  separate_from h0 h d → separate_from h0 (foldl (mutate_odict d) h ms) d.
Proof.
  revert h. induction ms as [|m ms IH]; intros h Hsep; [done|].
  apply IH. by apply mutate_odict_separate.
Qed.

Lemma foldl_mutate_dict_separate h0 (h : gmap nat pyobj) d ms :
  h0 ⊆ h → h0 !! d = None → h0 ⊆ foldl (mutate_dict d) h ms.
Proof.
  revert h. induction ms as [|m ms IH]; intros h Hsub Hd; [done|].
  apply IH; [|done]. by apply mutate_dict_separate.
Qed.

(** [deepcopy] makes new lists only, and they hold what the lists they copy
    hold. *)
Lemma deepcopy_entries_spec h0 memo (h : gmap nat pyobj) es :
  h0 ⊆ h →
  (∀ v v', memo !! v = Some v' →
           h0 !! v' = None ∧ is_list h v' ∧ is_list h v ∧
           list_elems h v' = list_elems h v) →
  Forall (λ e, is_list h e.2) es →
  let r := deepcopy_entries memo h es in
  h ⊆ r.2 ∧ Forall (λ e, h0 !! e.2 = None) r.1 ∧
  (λ e, (e.1, list_elems r.2 e.2)) <$> r.1 =
    (λ e, (e.1, list_elems h e.2)) <$> es.
Proof.
  revert memo h. induction es as [|[k v] es IH]; intros memo h Hsub Hmemo Hes.
  - done.
  - apply Forall_cons in Hes as [Hv Hes]. cbn [deepcopy_entries snd] in *.
    destruct (memo !! v) as [v'|] eqn:Hmv.
    + destruct (Hmemo _ _ Hmv) as (Hv0 & Hlv' & _ & Heq).
      destruct (IH memo h Hsub Hmemo Hes) as (Hsub' & Hall & Hitems).
      cbn [fst snd]. split_and!; [done| by constructor |].
      rewrite !fmap_cons. cbn [fst snd]. rewrite Hitems.
      by rewrite (list_elems_weaken h _ v' Hsub' Hlv'), Heq.
    + pose proof (alloc_subseteq h (PyList (list_elems h v))) as Hsuba.
      pose proof (alloc_fresh h (PyList (list_elems h v))) as Hfresh.
      pose proof (alloc_lookup_new h (PyList (list_elems h v))) as Hnew.
      destruct (alloc h (PyList (list_elems h v))) as [a ha].
      cbn [fst snd] in *.
      assert (is_list ha a) as Hlc by (unfold is_list; by rewrite Hnew).
      assert (list_elems ha a = list_elems h v) as Hec
        by (unfold list_elems at 1; by rewrite Hnew).
      destruct (IH (<[v := a]> memo) ha) as (Hsub' & Hall & Hitems).
      * by etrans.
      * intros w w' Hw. destruct (decide (v = w)) as [<-|Hne].
        -- rewrite lookup_insert_eq in Hw. injection Hw as <-.
           split_and!; [|done| by eapply is_list_weaken |].
           ++ by eapply lookup_weaken_None.
           ++ by rewrite Hec, (list_elems_weaken h ha v Hsuba Hv).
        -- rewrite lookup_insert_ne in Hw by done.
           destruct (Hmemo _ _ Hw) as (? & Hlw' & Hlw & Heq).
           split_and!; [done| by eapply is_list_weaken..|].
           by rewrite (list_elems_weaken h ha w' Hsuba Hlw'),
             (list_elems_weaken h ha w Hsuba Hlw).
      * eapply Forall_impl; [exact Hes|]. intros e. by apply is_list_weaken.
      * split_and!.
        -- by etrans.
        -- constructor; [|done]. by eapply lookup_weaken_None.
        -- rewrite !fmap_cons. cbn [fst snd]. rewrite Hitems. f_equal.
           ++ by rewrite (list_elems_weaken ha _ a Hsub' Hlc), Hec.
           ++ apply Forall_fmap_ext_1. eapply Forall_impl; [exact Hes|].
              intros e He. simpl. f_equal. by apply list_elems_weaken.
Qed.

Lemma deepcopy_odict_spec (h : gmap nat pyobj) d :
  mode_map_wf h d →
  let r := deepcopy_odict h d in
  separate_from h r.2 r.1 ∧ mode_map_items r.2 r.1 = mode_map_items h d.
Proof.
  intros (es & Hd & _ & Hes)%mode_map_wf_inv. unfold deepcopy_odict.
  assert (odict_entries h d = es) as -> by (unfold odict_entries; by rewrite Hd).
  pose proof (alloc_subseteq h (PyOrderedDict [])) as Hsuby.
  pose proof (alloc_fresh h (PyOrderedDict [])) as Hfresh.
  pose proof (alloc_lookup_new h (PyOrderedDict [])) as Hnew.
  destruct (alloc h (PyOrderedDict [])) as [y hy]. cbn [fst snd] in *.
  destruct (deepcopy_entries_spec hy ∅ hy es) as (Hsub & Hall & Hitems).
  - done.
  - intros v v' Hv. by rewrite lookup_empty in Hv.
  - eapply Forall_impl; [exact Hes|]. intros e. by apply is_list_weaken.
  - set (r := deepcopy_entries ∅ hy es) in *.
    assert (odict_entries (<[y := PyOrderedDict r.1]> r.2) y = r.1) as Hcopy.
    { unfold odict_entries. by rewrite lookup_insert_eq. }
    split; [split_and!|].
    + apply insert_subseteq_r; [done|]. by etrans.
    + done.
    + rewrite Hcopy. eapply Forall_impl; [exact Hall|].
      intros e He. exact (lookup_weaken_None _ _ _ He Hsuby).
    + unfold mode_map_items. rewrite Hcopy.
      assert (odict_entries h d = es) as ->
        by (unfold odict_entries; by rewrite Hd).
      etrans; [|etrans; [exact Hitems|]].
      * apply Forall_fmap_ext_1. eapply Forall_impl; [exact Hall|].
        intros e He. simpl. f_equal. unfold list_elems.
        rewrite lookup_insert_ne; [done|]. intros ->. congruence.
      * apply Forall_fmap_ext_1. eapply Forall_impl; [exact Hes|].
        intros e He. simpl. f_equal. by apply list_elems_weaken.
Qed.

(** C9.  The object [sound_mode_map] returns is a new dictionary holding
    what the mode map holds, the object [sound_mode_map_rev] returns a new
    dictionary holding what the reverse map holds.  Whatever the caller then
    does to the two, every object the heap had before is in it unchanged, and
    so the mode map and the reverse map of the resolver are what they
    were. *)
Theorem accessors_return_independent_copies s h ms ms_rev :
  resolver_wf h s →
  let copy := sound_mode_map s h in
  let h1 := foldl (mutate_odict copy.1) copy.2 ms in
  let copy_rev := sound_mode_map_rev s h1 in
  let h2 := foldl (mutate_dict copy_rev.1) copy_rev.2 ms_rev in
  mode_map_items copy.2 copy.1 = mode_map_items h (_sound_mode_map s) ∧
  dict_table copy_rev.2 copy_rev.1 = dict_table h (_sound_mode_map_rev s) ∧
  h ⊆ h2 ∧
  mode_map_items h2 (_sound_mode_map s) = mode_map_items h (_sound_mode_map s) ∧
  dict_table h2 (_sound_mode_map_rev s) = dict_table h (_sound_mode_map_rev s).
Proof.
  intros [Hwf Hrev]%andb_True copy h1 copy_rev h2.
  destruct (deepcopy_odict_spec h (_sound_mode_map s) Hwf) as [Hsep Hcopy].
  fold (sound_mode_map s h) in Hsep, Hcopy. fold copy in Hsep, Hcopy.
  pose proof (foldl_mutate_odict_separate h copy.2 copy.1 ms Hsep)
    as (Hsub1 & _ & _). fold h1 in Hsub1.
  pose proof (alloc_subseteq h1 (PyDict (dict_table h1 (_sound_mode_map_rev s))))
    as Hsubr.
  pose proof (alloc_fresh h1 (PyDict (dict_table h1 (_sound_mode_map_rev s))))
    as Hfresh.
  pose proof (alloc_lookup_new h1 (PyDict (dict_table h1 (_sound_mode_map_rev s))))
    as Hnew.
  fold (deepcopy_dict h1 (_sound_mode_map_rev s)) in Hsubr, Hfresh, Hnew.
  fold (sound_mode_map_rev s h1) in Hsubr, Hfresh, Hnew.
  fold copy_rev in Hsubr, Hfresh, Hnew.
  assert (h ⊆ h2) as Hsub2.
  { apply foldl_mutate_dict_separate; [by etrans|].
    by eapply lookup_weaken_None. }
  destruct (is_dict_weaken h h1 _ Hsub1 Hrev) as [_ Hrev1].
  split_and!.
  - done.
  - unfold dict_table at 1. by rewrite Hnew.
  - done.
  - by destruct (mode_map_weaken h h2 _ Hsub2 Hwf) as (_ & ? & _).
  - by destruct (is_dict_weaken h h2 _ Hsub2 Hrev) as [_ ?].
Qed.

Lemma accessors_return_independent_copies_witness :
  let s := self (updated_resolver "STEREO") in
  let h := heap (updated_resolver "STEREO") in
  let ms := [ListAppend "STEREO" "2CH"; SetItem "JAZZ" ["JAZZ CLUB"];
             ShareItem "MUSIC" "JAZZ"; ListSetItem "MUSIC" 0 "X";
             DelItem "ALL ZONE STEREO"; ListClear "STEREO"; Clear] in
  let ms_rev := [DictSetItem "STEREO" "MUSIC"; DictDelItem "PLII MUSIC";
                 DictClear] in
  let copy := sound_mode_map s h in
  let h1 := foldl (mutate_odict copy.1) copy.2 ms in
  let copy_rev := sound_mode_map_rev s h1 in
  let h2 := foldl (mutate_dict copy_rev.1) copy_rev.2 ms_rev in
  resolver_wf h s ∧
  mode_map_items copy.2 copy.1 = mode_map_items h (_sound_mode_map s) ∧
  dict_table copy_rev.2 copy_rev.1 = dict_table h (_sound_mode_map_rev s) ∧
  h ⊆ h2 ∧
  mode_map_items h2 (_sound_mode_map s) = mode_map_items h (_sound_mode_map s) ∧
  dict_table h2 (_sound_mode_map_rev s) = dict_table h (_sound_mode_map_rev s).
Proof.
  intros s h ms ms_rev.
  assert (resolver_wf h s) as Hwf by (vm_compute; exact I).
  split; [exact Hwf|].
  exact (accessors_return_independent_copies s h ms ms_rev Hwf).
Defined.

(** The same statements made through the mode map object itself do change
    what the resolver sees: the copy is what keeps the caller away. *)
Example mutation_of_the_mode_map_itself :
  let s := self (updated_resolver "STEREO") in
  let h := heap (updated_resolver "STEREO") in
  let h' := mutate_odict (_sound_mode_map s) h (ListAppend "STEREO" "2CH") in
  odict_getitem (mode_map_items h (_sound_mode_map s)) "STEREO" =
    Some ["STEREO"] ∧
  odict_getitem (mode_map_items h' (_sound_mode_map s)) "STEREO" =
    Some ["STEREO"; "2CH"].
Proof. split; by_evaluation. Qed.

(** ** A resolver alone in its process keeps the invariant *)

Create HintDb keeps_maps.

Lemma keeps_maps_ret {A} (a : A) : keeps_maps (ret a).
Proof. by intros st. Qed.

Lemma keeps_maps_raise {A} e : keeps_maps (@raise A e).
Proof. by intros st. Qed.

Lemma keeps_maps_get_self : keeps_maps get_self.
Proof. by intros st. Qed.

Lemma keeps_maps_bind {A B} (c : Coroutine A) (k : A → Coroutine B) :
  keeps_maps c → (∀ a, keeps_maps (k a)) → keeps_maps (bind c k).
Proof.
  intros Hc Hk st. unfold bind. destruct (Hc st) as (Hh & Hm & Hr).
  destruct (c st) as [[a|e] st']; simpl in *; [|done].
  destruct (Hk a st') as (Hh' & Hm' & Hr'). split_and!; congruence.
Qed.

Lemma keeps_maps_await {A} (c : Coroutine A) : keeps_maps c → keeps_maps (await c).
Proof. done. Qed.

Lemma keeps_maps_try {A} (body handler : Coroutine A) :
  keeps_maps body → keeps_maps handler →
  keeps_maps (try_except_AvrProcessingError body handler).
Proof.
  intros Hb Hh st. unfold try_except_AvrProcessingError.
  destruct (Hb st) as (H1 & H2 & H3).
  destruct (body st) as [[a|[msg|name]] st']; simpl in *; try done.
  destruct (Hh st') as (H1' & H2' & H3'). split_and!; congruence.
Qed.

Lemma keeps_maps_call_api c : keeps_maps (call_api c).
Proof. intros st. unfold call_api. by destruct (api _ _ _). Qed.

Lemma keeps_maps_add_tag tag : keeps_maps (add_appcommand_update_tag tag).
Proof. by intros st. Qed.

Lemma keeps_maps_set_support v :
  keeps_maps (set_self (λ s, with_support_sound_mode s v)).
Proof. by intros st. Qed.

Lemma keeps_maps_set_raw v :
  keeps_maps (set_self (λ s, with_sound_mode_raw s v)).
Proof. by intros st. Qed.

Lemma keeps_maps_set_is_setup v :
  keeps_maps (set_self (λ s, with_is_setup s v)).
Proof. by intros st. Qed.

#[local] Hint Resolve keeps_maps_ret keeps_maps_raise keeps_maps_get_self
  keeps_maps_bind keeps_maps_await keeps_maps_try keeps_maps_call_api
  keeps_maps_add_tag keeps_maps_set_support keeps_maps_set_raw
  keeps_maps_set_is_setup : keeps_maps.

Lemma keeps_maps_status_xml update_dict pages cache_id :
  keeps_maps (async_update_attrs_status_xml update_dict pages cache_id).
Proof. unfold async_update_attrs_status_xml. auto with keeps_maps. Qed.

Lemma keeps_maps_appcommand update_dict global_update cache_id :
  keeps_maps (async_update_attrs_appcommand update_dict global_update cache_id).
Proof. unfold async_update_attrs_appcommand. auto with keeps_maps. Qed.

#[local] Hint Resolve keeps_maps_status_xml keeps_maps_appcommand : keeps_maps.

Lemma keeps_maps_async_update_sound_mode global_update cache_id :
  keeps_maps (async_update_sound_mode global_update cache_id).
Proof.
  unfold async_update_sound_mode.
  apply keeps_maps_bind; [auto with keeps_maps|]. intros s.
  destruct (use_avr_2016_update (_device s)) as [[]|]; [auto with keeps_maps| |auto with keeps_maps].
  destruct (_support_sound_mode s) as [[]|]; [|auto with keeps_maps|];
    (apply keeps_maps_bind; [auto 10 with keeps_maps|]; intros []; auto with keeps_maps).
Qed.

#[local] Hint Resolve keeps_maps_async_update_sound_mode : keeps_maps.

Lemma keeps_maps_async_setup : keeps_maps async_setup.
Proof.
  unfold async_setup, appcommand_attrs. cbn [foldr].
  apply keeps_maps_bind; [auto with keeps_maps|]. intros _.
  apply keeps_maps_bind; [auto with keeps_maps|]. intros s.
  apply keeps_maps_bind; [|auto with keeps_maps].
  destruct (receiver _); auto with keeps_maps.
Qed.

#[local] Hint Resolve keeps_maps_async_setup : keeps_maps.

Lemma keeps_maps_async_update global_update cache_id :
  keeps_maps (async_update global_update cache_id).
Proof.
  unfold async_update. apply keeps_maps_bind; [auto with keeps_maps|].
  intros s. apply keeps_maps_bind; [|auto with keeps_maps].
  destruct (_is_setup s); auto with keeps_maps.
Qed.

Lemma keeps_maps_async_get_command url : keeps_maps (async_get_command url).
Proof. unfold async_get_command. auto with keeps_maps. Qed.

Lemma keeps_maps_set_all_zone_stereo zst_on :
  keeps_maps (_async_set_all_zone_stereo zst_on).
Proof.
  unfold _async_set_all_zone_stereo.
  apply keeps_maps_bind; [auto with keeps_maps|]. intros s.
  apply keeps_maps_await, keeps_maps_async_get_command.
Qed.

Lemma resolver_ok_keeps_maps {A} (c : Coroutine A) st :
  keeps_maps c → resolver_ok st → resolver_ok (c st).2.
Proof.
  intros Hc. destruct (Hc st) as (Hh & Hm & Hr).
  unfold resolver_ok, resolver_wf, rev_in_sync, sound_mode_rev_map_factory.
  by rewrite Hh, Hm, Hr.
Qed.

Lemma resolver_ok_match_sound_mode st x :
  resolver_ok st → resolver_ok (on_self (λ s h, match_sound_mode s h x) st).2.
Proof.
  intros (Hwf & Hsync & Hamb).
  destruct (match_sound_mode_preserves _ _ x Hwf Hsync Hamb) as (? & ? & ? & _).
  by split_and!.
Qed.

Lemma resolver_ok_sound_mode st :
  resolver_ok st → resolver_ok (on_self sound_mode st).2.
Proof.
  intros Hok. unfold on_self, sound_mode.
  destruct (_sound_mode_raw (self st)) as [raw|]; [|by destruct st].
  by apply (resolver_ok_match_sound_mode st raw).
Qed.

Lemma resolver_ok_weaken st h' :
  resolver_ok st → heap st ⊆ h' → resolver_ok (with_heap st h').
Proof.
  intros (Hwf & Hsync & Hamb) Hsub. apply andb_True in Hwf as [Hwf Hrev].
  destruct (mode_map_weaken _ _ _ Hsub Hwf) as (Hwf' & Hitems & _).
  destruct (is_dict_weaken _ _ _ Hsub Hrev) as [Hrev' Htable].
  unfold resolver_ok, rev_in_sync, sound_mode_rev_map_factory.
  cbn [self heap with_heap]. rewrite Hitems, Htable. split_and!; try done.
  by apply andb_True.
Qed.

Lemma resolver_ok_async_set_sound_mode st target :
  resolver_ok st → resolver_ok (async_set_sound_mode target st).2.
Proof.
  intros Hok. unfold async_set_sound_mode. case_decide.
  - apply resolver_ok_keeps_maps; [|done].
    apply keeps_maps_await, keeps_maps_set_all_zone_stereo.
  - unfold bind at 1. unfold self_sound_mode at 1.
    pose proof (resolver_ok_sound_mode st Hok) as Hok'.
    destruct (on_self sound_mode st) as [[cur|e] st'] eqn:Hrun;
      [|by unfold on_self in Hrun].
    apply resolver_ok_keeps_maps; [|done].
    apply keeps_maps_bind.
    + unfold not_awaited. case_decide; auto with keeps_maps.
    + intros _. apply keeps_maps_bind; [auto with keeps_maps|]. intros s.
      apply keeps_maps_await, keeps_maps_async_get_command.
Qed.

Lemma resolver_ok_run st op : resolver_ok st → resolver_ok (run st op).
Proof.
  intros Hok.
  destruct op as [|g c|g c|target|x| |ms|ms]; cbn [run].
  - apply resolver_ok_keeps_maps; [apply keeps_maps_async_setup | done].
  - apply resolver_ok_keeps_maps; [apply keeps_maps_async_update | done].
  - apply resolver_ok_keeps_maps;
      [apply keeps_maps_async_update_sound_mode | done].
  - by apply resolver_ok_async_set_sound_mode.
  - by apply resolver_ok_match_sound_mode.
  - by apply resolver_ok_sound_mode.
  - apply resolver_ok_weaken; [done|].
    destruct Hok as ([Hwf _]%andb_True & _).
    destruct (deepcopy_odict_spec _ _ Hwf) as [Hsep _].
    by destruct (foldl_mutate_odict_separate _ _ _ ms Hsep) as (? & _).
  - apply resolver_ok_weaken; [done|].
    apply foldl_mutate_dict_separate; [apply alloc_subseteq | apply alloc_fresh].
Qed.

Lemma new_resolver_ok d device (h : gmap nat pyobj) :
  mode_map_wf h d → aliases_unambiguous (mode_map_items h d) →
  resolver_ok (start (new_DenonAVRSoundMode d device h).1
                 (new_DenonAVRSoundMode d device h).2).
Proof.
  intros Hwf Hamb. unfold new_DenonAVRSoundMode, sound_mode_rev_map_factory.
  cbn [_sound_mode_map fst snd with_sound_mode_map_rev].
  set (o := PyDict (rev_map_of_items (mode_map_items h d))).
  pose proof (alloc_subseteq h o) as Hsub.
  pose proof (alloc_lookup_new h o) as Hnew.
  destruct (mode_map_weaken _ _ _ Hsub Hwf) as (Hwf' & Hitems & _).
  unfold resolver_ok, resolver_wf, rev_in_sync, sound_mode_rev_map_factory,
    is_dict, dict_table.
  cbn [self heap start _sound_mode_map _sound_mode_map_rev
       with_sound_mode_map_rev].
  rewrite Hnew, Hitems. split_and!; try done.
Qed.

(** X26.  A resolver that is the only one made from its mode map table
    keeps the reverse-index invariant through every operation of its owner,
    when no two modes of the table share an alias. *)
Lemma lone_resolver_invariant d device (h : gmap nat pyobj) ops :
  mode_map_wf h d → aliases_unambiguous (mode_map_items h d) →
  let st := foldl run (start (sound_mode_factory d device h).1
                         (sound_mode_factory d device h).2) ops in
  rev_index_invariant (heap st) (self st).
Proof.
  intros Hwf Hamb st.
  assert (resolver_ok st) as (_ & Hsync & Hamb').
  { unfold st. generalize (new_resolver_ok d device h Hwf Hamb).
    unfold sound_mode_factory.
    generalize (start (new_DenonAVRSoundMode d device h).1
                  (new_DenonAVRSoundMode d device h).2).
    induction ops as [|op ops IH]; intros st0 Hok; [done|].
    cbn [foldl]. by apply IH, resolver_ok_run. }
  by apply rev_index_invariant_of_sync.
Qed.

(** ** No raw sound mode before an update succeeds *)

Create HintDb keeps_raw.

Lemma keeps_raw_ret {A} (a : A) : keeps_raw (ret a).
Proof. by intros st. Qed.

Lemma keeps_raw_raise {A} e : keeps_raw (@raise A e).
Proof. by intros st. Qed.

Lemma keeps_raw_get_self : keeps_raw get_self.
Proof. by intros st. Qed.

Lemma keeps_raw_bind {A B} (c : Coroutine A) (k : A → Coroutine B) :
  keeps_raw c → (∀ a, keeps_raw (k a)) → keeps_raw (bind c k).
Proof.
  intros Hc Hk st Hdev. unfold bind. destruct (Hc st Hdev) as (Hr & Hd).
  destruct (c st) as [[a|e] st']; simpl in *; [|done].
  destruct (Hk a st') as (Hr' & Hd'); [by rewrite Hd|].
  split; congruence.
Qed.

Lemma keeps_raw_try {A} (body handler : Coroutine A) :
  keeps_raw body → keeps_raw handler →
  keeps_raw (try_except_AvrProcessingError body handler).
Proof.
  intros Hb Hh st Hdev. unfold try_except_AvrProcessingError.
  destruct (Hb st Hdev) as (Hr & Hd).
  destruct (body st) as [[a|[msg|name]] st']; simpl in *; try done.
  destruct (Hh st') as (Hr' & Hd'); [by rewrite Hd|].
  split; congruence.
Qed.

Lemma keeps_raw_call_api_then {A} c (k : option string → Coroutine A) :
  keeps_raw (bind (call_api c) k).
Proof.
  intros st Hdev. unfold bind, call_api.
  by destruct (Hdev (calls st) c) as [e ->].
Qed.

Lemma keeps_raw_add_tag tag : keeps_raw (add_appcommand_update_tag tag).
Proof. by intros st. Qed.

Lemma keeps_raw_set_support v :
  keeps_raw (set_self (λ s, with_support_sound_mode s v)).
Proof. by intros st. Qed.

Lemma keeps_raw_set_is_setup v :
  keeps_raw (set_self (λ s, with_is_setup s v)).
Proof. by intros st. Qed.

Lemma keeps_raw_on_self_sound_mode : keeps_raw (on_self sound_mode).
Proof.
  intros st _. unfold on_self, sound_mode, match_sound_mode. cbn [snd self].
  destruct (_sound_mode_raw (self st)) eqn:Hraw; [|done].
  destruct (dict_table _ _ !! _); cbn [fst snd]; by rewrite ?Hraw.
Qed.

Lemma keeps_raw_on_self_match x :
  keeps_raw (on_self (λ s h, match_sound_mode s h x)).
Proof.
  intros st _. unfold on_self, match_sound_mode. cbn [snd self].
  destruct (_sound_mode_raw (self st)) eqn:Hraw; [|done].
  destruct (dict_table _ _ !! _); cbn [fst snd]; by rewrite ?Hraw.
Qed.

#[local] Hint Resolve keeps_raw_ret keeps_raw_raise keeps_raw_get_self
  keeps_raw_bind keeps_raw_try keeps_raw_call_api_then keeps_raw_add_tag
  keeps_raw_set_support keeps_raw_set_is_setup keeps_raw_on_self_sound_mode
  keeps_raw_on_self_match : keeps_raw.

Lemma keeps_raw_async_update_sound_mode global_update cache_id :
  keeps_raw (async_update_sound_mode global_update cache_id).
Proof.
  unfold async_update_sound_mode, await, async_update_attrs_status_xml,
    async_update_attrs_appcommand.
  apply keeps_raw_bind; [auto with keeps_raw|]. intros s.
  destruct (use_avr_2016_update (_device s)) as [[]|]; [auto with keeps_raw| |auto with keeps_raw].
  destruct (_support_sound_mode s) as [[]|]; [|auto with keeps_raw|];
    (apply keeps_raw_bind; [auto 10 with keeps_raw|]; intros []; auto with keeps_raw).
Qed.

#[local] Hint Resolve keeps_raw_async_update_sound_mode : keeps_raw.

Lemma keeps_raw_async_setup : keeps_raw async_setup.
Proof.
  unfold async_setup, appcommand_attrs, await. cbn [foldr].
  apply keeps_raw_bind; [auto with keeps_raw|]. intros _.
  apply keeps_raw_bind; [auto with keeps_raw|]. intros s.
  apply keeps_raw_bind; [|auto with keeps_raw].
  destruct (receiver _); auto with keeps_raw.
Qed.

#[local] Hint Resolve keeps_raw_async_setup : keeps_raw.

Lemma keeps_raw_async_update global_update cache_id :
  keeps_raw (async_update global_update cache_id).
Proof.
  unfold async_update, await. apply keeps_raw_bind; [auto with keeps_raw|].
  intros s. apply keeps_raw_bind; [|auto with keeps_raw].
  destruct (_is_setup s); auto with keeps_raw.
Qed.

Lemma keeps_raw_async_set_sound_mode target :
  keeps_raw (async_set_sound_mode target).
Proof.
  unfold async_set_sound_mode, _async_set_all_zone_stereo, await,
    async_get_command, self_sound_mode, not_awaited.
  case_decide; [auto with keeps_raw|].
  apply keeps_raw_bind; [auto with keeps_raw|]. intros cur.
  apply keeps_raw_bind; [case_decide; auto with keeps_raw|].
  auto with keeps_raw.
Qed.

Lemma run_keeps_raw st op :
  never_answers (_device (self st)) →
  _sound_mode_raw (self (run st op)) = _sound_mode_raw (self st) ∧
  _device (self (run st op)) = _device (self st).
Proof.
  intros Hdev. destruct op as [|g c|g c|target|x| |ms|ms]; cbn [run].
  - by apply keeps_raw_async_setup.
  - by apply keeps_raw_async_update.
  - by apply keeps_raw_async_update_sound_mode.
  - by apply keeps_raw_async_set_sound_mode.
  - by apply keeps_raw_on_self_match.
  - by apply keeps_raw_on_self_sound_mode.
  - done.
  - done.
Qed.

(** X27.  Until a request to the device succeeds the [sound_mode] property
    of a new resolver returns [None] and changes nothing, whatever its owner
    does. *)
Lemma sound_mode_before_successful_update d device h ops :
  never_answers device →
  let st := foldl run (start (sound_mode_factory d device h).1
                         (sound_mode_factory d device h).2) ops in
  sound_mode (self st) (heap st) = (None, self st, heap st).
Proof.
  intros Hdev st.
  assert (_sound_mode_raw (self st) = None) as Hraw.
  { cut (_sound_mode_raw (self st) = None ∧ _device (self st) = device);
      [by intros [? _]|].
    unfold st.
    assert (_sound_mode_raw
              (self (start (sound_mode_factory d device h).1
                       (sound_mode_factory d device h).2)) = None ∧
            _device (self (start (sound_mode_factory d device h).1
                             (sound_mode_factory d device h).2)) = device)
      as Hstart by done.
    revert Hstart.
    generalize (start (sound_mode_factory d device h).1
                  (sound_mode_factory d device h).2).
    induction ops as [|op ops IH]; intros st0 [Hr Hd]; [done|].
    cbn [foldl]. apply IH.
    destruct (run_keeps_raw st0 op) as [Hr' Hd']; [by rewrite Hd|].
    split; congruence. }
  unfold sound_mode. by rewrite Hraw.
Qed.

(** ** Two resolvers on one mode map *)

(** [match_sound_mode] writes to the mode map object and to new objects
    only. *)
Lemma match_sound_mode_frame s (h : gmap nat pyobj) x l o :
  h !! l = Some o → l ≠ _sound_mode_map s →
  (match_sound_mode s h x).2 !! l = Some o.
Proof.
  intros Hl Hne. unfold match_sound_mode.
  destruct (_sound_mode_raw s); [|done].
  destruct (dict_table h (_sound_mode_map_rev s) !! upper x); [done|].
  cbn [snd].
  set (aliases := alloc h (PyList [upper x])).
  set (h1 := odict_store aliases.2 (_sound_mode_map s) (upper x) aliases.1).
  assert (h1 !! l = Some o) as Hl1.
  { unfold h1, odict_store. rewrite lookup_insert_ne by done.
    by apply (lookup_weaken h), alloc_subseteq. }
  by apply (lookup_weaken h1), alloc_subseteq.
Qed.

(** Whatever the table and the devices, once one of two resolvers made from
    the same mode map meets a raw sound mode no alias of the table matches,
    the invariant of the other is broken. *)
Lemma second_resolver_invariant_broken d device_a device_b
    (h : gmap nat pyobj) x :
  mode_map_wf h d → unknown_alias (mode_map_items h d) (upper x) →
  let a := sound_mode_factory d device_a h in
  let b := sound_mode_factory d device_b a.2 in
  let r := match_sound_mode (with_sound_mode_raw a.1 (Some x)) b.2 x in
  ¬ rev_index_invariant r.2 b.1.
Proof.
  intros Hwf Hun a b r Hinv.
  (* the first resolver *)
  pose proof (new_resolver_ok d device_a h Hwf) as Hok_a.
  assert (mode_map_wf a.2 d ∧ mode_map_items a.2 d = mode_map_items h d)
    as [Hwf_a Hitems_a].
  { destruct (mode_map_weaken h a.2 d) as (? & ? & _); [|done|done].
    apply alloc_subseteq. }
  (* the second resolver and its reverse map *)
  set (o := PyDict (sound_mode_rev_map_factory a.2
                      {| _device := device_b; _is_setup := false;
                         _support_sound_mode := None; _sound_mode_raw := None;
                         _sound_mode_map := d; _sound_mode_map_rev := 0 |})).
  assert (b.2 !! _sound_mode_map_rev b.1 = Some o) as Hrev_b
    by apply alloc_lookup_new.
  assert (_sound_mode_map_rev b.1 ≠ d) as Hne.
  { intros Heq. apply mode_map_wf_inv in Hwf_a as (es & Hd & _).
    pose proof (alloc_fresh a.2 o) as Hfresh.
    change (alloc a.2 o).1 with (_sound_mode_map_rev b.1) in Hfresh.
    congruence. }
  assert (mode_map_wf b.2 d ∧ mode_map_items b.2 d = mode_map_items h d)
    as [Hwf_b Hitems_b].
  { destruct (mode_map_weaken a.2 b.2 d) as (? & ? & _); [|done|].
    - apply alloc_subseteq.
    - split; [done | congruence]. }
  (* the first resolver misses *)
  set (s := with_sound_mode_raw a.1 (Some x)) in *.
  assert (resolver_wf b.2 s ∧ rev_in_sync b.2 s) as [Hwf_s Hsync_s].
  { assert (b.2 !! _sound_mode_map_rev a.1 =
            Some (PyDict (rev_map_of_items (mode_map_items h d)))) as Hrev_a.
    { apply (lookup_weaken a.2); [apply alloc_lookup_new | apply alloc_subseteq]. }
    unfold resolver_wf, rev_in_sync, sound_mode_rev_map_factory, is_dict,
      dict_table.
    cbn [s with_sound_mode_raw _sound_mode_map _sound_mode_map_rev].
    change (_sound_mode_map a.1) with d. rewrite Hrev_a, Hitems_b.
    split; [by apply andb_True | done]. }
  assert (_sound_mode_raw s ≠ None) as Hraw by done.
  assert (unknown_alias (mode_map_items b.2 (_sound_mode_map s)) (upper x))
    as Hun_s by (change (_sound_mode_map s) with d; by rewrite Hitems_b).
  pose proof (rev_in_sync_unknown _ _ _ Hsync_s Hun_s) as Hmiss.
  destruct (match_sound_mode_miss s b.2 x Hwf_s Hraw Hmiss)
    as (_ & _ & _ & _ & Hitems).
  fold r in Hitems.
  (* the second resolver sees the new entry, its reverse map does not *)
  assert ((upper x, [upper x]) ∈ mode_map_items r.2 (_sound_mode_map b.1)) as Hin.
  { change (_sound_mode_map b.1) with (_sound_mode_map s).
    rewrite Hitems. apply odict_setitem_new. }
  specialize (Hinv _ _ (upper x) Hin).
  assert (r.2 !! _sound_mode_map_rev b.1 = Some o) as Hrev_b'
    by by apply match_sound_mode_frame.
  unfold dict_table in Hinv. rewrite Hrev_b' in Hinv.
  unfold o, sound_mode_rev_map_factory in Hinv. cbn [_sound_mode_map] in Hinv.
  rewrite Hitems_a, upper_idemp, (rev_map_of_items_unknown _ _ Hun) in Hinv.
  discriminate Hinv. by apply list_elem_of_singleton.
Qed.

(** C8, at the failing input.  Two resolvers share the mode map object.
    Before the first one meets an unknown raw sound mode the invariant holds
    for the second.  Reading [sound_mode] on the first stores the entry
    "DOLBY FOO" in the shared mode map and rebuilds the reverse map of the
    first resolver only: the mode map of the second now has the alias
    "DOLBY FOO", its reverse map has no entry for it, and its invariant is
    broken. *)
Theorem rev_index_invariant_broken_for_second_resolver :
  let second := two_resolvers.1.2 in
  rev_index_invariant two_resolvers.2 second ∧
  first_resolver_read.1.1 = Some "Dolby Foo" ∧
  ("DOLBY FOO", ["DOLBY FOO"]) ∈
    mode_map_items first_resolver_read.2 (_sound_mode_map second) ∧
  dict_table first_resolver_read.2 (_sound_mode_map_rev second)
    !! upper "DOLBY FOO" = None ∧
  ¬ rev_index_invariant first_resolver_read.2 second.
Proof.
  intros second.
  assert (("DOLBY FOO", ["DOLBY FOO"]) ∈
            mode_map_items first_resolver_read.2 (_sound_mode_map second))
    as Hin by by_evaluation.
  assert (dict_table first_resolver_read.2 (_sound_mode_map_rev second)
            !! upper "DOLBY FOO" = None) as Hnone by by_evaluation.
  split_and!; [|by_evaluation|done|done|].
  - apply rev_index_invariant_of_sync; by_evaluation.
  - intros Hinv.
    specialize (Hinv "DOLBY FOO" ["DOLBY FOO"] "DOLBY FOO" Hin).
    rewrite Hnone in Hinv. discriminate Hinv. by apply list_elem_of_singleton.
Qed.

(** * Further properties of the module *)

(** ** [rstrip_string] *)






(** ** [sound_mode_rev_map_factory] *)

Lemma mode_map_items_keys h d : (mode_map_items h d).*1 = (odict_entries h d).*1.
Proof.
  unfold mode_map_items. rewrite <- list_fmap_compose.
  by apply list_fmap_ext.
Qed.

Lemma foldl_rev_map_add_entry_unknown acc items k :
  unknown_alias items k → foldl rev_map_add_entry acc items !! k = acc !! k.
Proof.
  unfold unknown_alias. revert acc.
  induction items as [|e items IH]; intros acc Hun; [done|].
  apply Forall_cons in Hun as [He Hun]. cbn [foldl].
  rewrite (IH _ Hun), rev_map_add_entry_lookup.
  rewrite decide_False; [done|].
  intros (r & -> & Hr)%list_elem_of_fmap.
  rewrite Forall_forall in He. by destruct (He r Hr).
Qed.

(** X2.  Every entry of the reverse map the factory builds comes from an
    alias: its key is the uppercase form of an alias registered under the
    mode it names, so the key is itself uppercase and the mode is one of
    [sound_mode_list]. *)
Theorem sound_mode_rev_map_factory_entry h s k m :
  sound_mode_rev_map_factory h s !! k = Some m →
  upper k = k ∧ m ∈ sound_mode_list s h ∧
  ∃ l r, (m, l) ∈ mode_map_items h (_sound_mode_map s) ∧ r ∈ l ∧ upper r = k.
Proof.
  intros (l & r & Hin & Hr & <-)%rev_map_of_items_Some. split_and!.
  - apply upper_idemp.
  - unfold sound_mode_list. rewrite <- mode_map_items_keys.
    apply list_elem_of_fmap. by exists (m, l).
  - eauto.
Qed.

Lemma sound_mode_rev_map_factory_entry_witness :
  let st := fresh_resolver "STEREO" in
  sound_mode_rev_map_factory (heap st) (self st) !! "DTS NEO:6 MUSIC" =
    Some "MUSIC" ∧
  upper "DTS NEO:6 MUSIC" = "DTS NEO:6 MUSIC" ∧
  "MUSIC" ∈ sound_mode_list (self st) (heap st).
Proof.
  intros st.
  assert (sound_mode_rev_map_factory (heap st) (self st) !! "DTS NEO:6 MUSIC" =
            Some "MUSIC") as Hk by by_evaluation.
  destruct (sound_mode_rev_map_factory_entry _ _ _ _ Hk) as (? & ? & _).
  by split_and!.
Defined.

(** X3.  Every alias of the mode map has an entry in the reverse map the
    factory builds, under its uppercase form. *)
Theorem sound_mode_rev_map_factory_complete h s m l r :
  (m, l) ∈ mode_map_items h (_sound_mode_map s) → r ∈ l →
  is_Some (sound_mode_rev_map_factory h s !! upper r).
Proof.
  intros Hin Hr. unfold sound_mode_rev_map_factory.
  destruct (rev_map_of_items _ !! upper r) as [m'|] eqn:Hk; [by eexists|].
  apply rev_map_of_items_None in Hk. unfold unknown_alias in Hk.
  rewrite Forall_forall in Hk. specialize (Hk _ Hin).
  rewrite Forall_forall in Hk. by destruct (Hk r Hr).
Qed.

Lemma sound_mode_rev_map_factory_complete_witness :
  let st := fresh_resolver "STEREO" in
  ("MUSIC", ["PLII MUSIC"; "DTS NEO:6 MUSIC"]) ∈
    mode_map_items (heap st) (_sound_mode_map (self st)) ∧
  is_Some (sound_mode_rev_map_factory (heap st) (self st) !! upper "PLII MUSIC").
Proof.
  intros st.
  assert (("MUSIC", ["PLII MUSIC"; "DTS NEO:6 MUSIC"]) ∈
            mode_map_items (heap st) (_sound_mode_map (self st))) as Hin
    by by_evaluation.
  split; [done|].
  apply (sound_mode_rev_map_factory_complete _ _ "MUSIC"
           ["PLII MUSIC"; "DTS NEO:6 MUSIC"]); [done | by_evaluation].
Defined.

(** X4.  When several modes list the same alias, uppercase forms compared,
    the reverse map gives it to the last of them in the order of the mode
    map. *)
Theorem sound_mode_rev_map_factory_last_wins h s before m l after r :
  mode_map_items h (_sound_mode_map s) = before ++ (m, l) :: after →
  r ∈ l → unknown_alias after (upper r) →
  sound_mode_rev_map_factory h s !! upper r = Some m.
Proof.
  intros Hitems Hr Hun. unfold sound_mode_rev_map_factory, rev_map_of_items.
  rewrite Hitems, foldl_app. cbn [foldl].
  rewrite (foldl_rev_map_add_entry_unknown _ _ _ Hun).
  rewrite rev_map_add_entry_lookup, decide_True; [done|].
  apply list_elem_of_fmap. eauto.
Qed.

Lemma sound_mode_rev_map_factory_last_wins_witness :
  let h : gmap nat pyobj :=
    {[ 0 := PyOrderedDict [("MUSIC", 1); ("MOVIE", 2); ("GAME", 3)];
       1 := PyList ["Neo:6"]; 2 := PyList ["cinema"; "NEO:6"];
       3 := PyList ["PLII GAME"] ]} in
  let s := (sound_mode_factory 0 (sample_device "STEREO") h).1 in
  sound_mode_rev_map_factory h s !! upper "Neo:6" = Some "MOVIE".
Proof.
  intros h s.
  apply (sound_mode_rev_map_factory_last_wins h s [("MUSIC", ["Neo:6"])]
           "MOVIE" ["cinema"; "NEO:6"] [("GAME", ["PLII GAME"])] "NEO:6");
    by_evaluation.
Defined.

(** ** [match_sound_mode] and the [sound_mode] property *)

(** X5.  What [match_sound_mode] leaves behind depends on the uppercase form
    of its argument only; so does what it returns, except on a miss, where
    each spelling gets itself back. *)
Theorem match_sound_mode_case_insensitive s h x y :
  upper x = upper y →
  let rx := match_sound_mode s h x in
  let ry := match_sound_mode s h y in
  rx.1.2 = ry.1.2 ∧ rx.2 = ry.2 ∧
  (rx.1.1 = ry.1.1 ∨
   (rx.1.1 = Some x ∧ ry.1.1 = Some y ∧
    dict_table h (_sound_mode_map_rev s) !! upper x = None)).
Proof.
  intros Heq. unfold match_sound_mode. rewrite <- Heq.
  destruct (_sound_mode_raw s); [|by split_and!; [..|left]].
  destruct (dict_table h (_sound_mode_map_rev s) !! upper x);
    cbn [fst snd]; split_and!; try done; [by left | by right].
Qed.

Lemma match_sound_mode_case_insensitive_witness :
  let st := updated_resolver "STEREO" in
  let rx := match_sound_mode (self st) (heap st) "plii music" in
  let ry := match_sound_mode (self st) (heap st) "PLII Music" in
  rx.1.2 = ry.1.2 ∧ rx.2 = ry.2 ∧
  (rx.1.1 = ry.1.1 ∨
   (rx.1.1 = Some "plii music" ∧ ry.1.1 = Some "PLII Music" ∧
    dict_table (heap st) (_sound_mode_map_rev (self st)) !! upper "plii music" =
      None)).
Proof.
  intros st.
  apply (match_sound_mode_case_insensitive (self st) (heap st) "plii music"
           "PLII Music").
  reflexivity.
Defined.

(** X6.  [match_sound_mode] never changes the device, the setup flag, the
    support flag or the stored raw sound mode, and never rebinds the mode
    map; every object of the heap other than the mode map is afterwards what
    it was. *)
Theorem match_sound_mode_keeps s h x :
  let r := match_sound_mode s h x in
  _device r.1.2 = _device s ∧ _is_setup r.1.2 = _is_setup s ∧
  _support_sound_mode r.1.2 = _support_sound_mode s ∧
  _sound_mode_raw r.1.2 = _sound_mode_raw s ∧
  _sound_mode_map r.1.2 = _sound_mode_map s ∧
  delete (_sound_mode_map s) h ⊆ r.2.
Proof.
  intros r.
  assert (delete (_sound_mode_map s) h ⊆ r.2) as Hsub.
  { apply map_subseteq_spec. intros l o Hl.
    apply lookup_delete_Some in Hl as [Hne Hl].
    by apply match_sound_mode_frame. }
  unfold r, match_sound_mode in *.
  destruct (_sound_mode_raw s) eqn:Hraw; [|done].
  by destruct (dict_table h (_sound_mode_map_rev s) !! upper x).
Qed.

(** X7.  [match_sound_mode] leaves the names of [sound_mode_list] in their
    places: the list stays as it is, or gets the one new name [upper x] at
    its end. *)
Theorem match_sound_mode_list_grows_at_end s h x :
  resolver_wf h s →
  let r := match_sound_mode s h x in
  sound_mode_list r.1.2 r.2 = sound_mode_list s h ∨
  ((upper x ∉ sound_mode_list s h) ∧
   sound_mode_list r.1.2 r.2 = sound_mode_list s h ++ [upper x]).
Proof.
  intros Hwf r.
  destruct (_sound_mode_raw s) as [raw|] eqn:Hraw;
    [|left; unfold r, match_sound_mode; by rewrite Hraw].
  destruct (dict_table h (_sound_mode_map_rev s) !! upper x) as [m|] eqn:Hm.
  { left. unfold r. rewrite (match_sound_mode_hit s h x m); [done| |done].
    by rewrite Hraw. }
  destruct (match_sound_mode_miss s h x) as (_ & [rev Hs] & _ & _ & Hitems);
    [done | by rewrite Hraw | done |].
  fold r in Hs, Hitems.
  assert (sound_mode_list r.1.2 r.2 =
          (odict_setitem (mode_map_items h (_sound_mode_map s)) (upper x)
             [upper x]).*1) as ->.
  { rewrite <- Hitems, mode_map_items_keys. unfold sound_mode_list.
    by rewrite Hs. }
  rewrite odict_setitem_keys, mode_map_items_keys.
  fold (sound_mode_list s h). case_decide; [by left | by right].
Qed.

Lemma match_sound_mode_list_grows_at_end_witness :
  let st := updated_resolver "STEREO" in
  let r := match_sound_mode (self st) (heap st) "Dolby Foo" in
  sound_mode_list r.1.2 r.2 = sound_mode_list (self st) (heap st) ∨
  ((upper "Dolby Foo" ∉ sound_mode_list (self st) (heap st)) ∧
   sound_mode_list r.1.2 r.2 =
     sound_mode_list (self st) (heap st) ++ [upper "Dolby Foo"]).
Proof.
  intros st.
  apply (match_sound_mode_list_grows_at_end (self st) (heap st) "Dolby Foo").
  vm_compute. exact I.
Defined.

(** X8.  The [sound_mode] property returns [None] exactly when no raw sound
    mode is stored. *)
Theorem sound_mode_none_iff s h :
  (sound_mode s h).1.1 = None ↔ _sound_mode_raw s = None.
Proof.
  unfold sound_mode, match_sound_mode.
  destruct (_sound_mode_raw s) as [raw|]; [|done].
  by destruct (dict_table h (_sound_mode_map_rev s) !! upper raw).
Qed.

Lemma odict_setitem_elem_of_other {V} (es : list (string * V)) k v e :
  NoDup es.*1 → e ∈ odict_setitem es k v → e = (k, v) ∨ (e ∈ es ∧ e.1 ≠ k).
Proof.
  induction es as [|[k' v'] es IH]; intros Hnd; cbn [odict_setitem].
  - intros ->%list_elem_of_singleton. by left.
  - rewrite fmap_cons in Hnd. apply NoDup_cons in Hnd as [Hk' Hnd].
    case_decide as Hk.
    + intros [->|He]%elem_of_cons; [by left|]. right. split.
      * apply elem_of_cons. by right.
      * intros Heq. apply Hk'. simpl. rewrite Hk, <- Heq.
        by apply list_elem_of_fmap_2.
    + intros [->|He]%elem_of_cons.
      * right. split; [apply elem_of_cons; by left | done].
      * destruct (IH Hnd He) as [->|[? ?]]; [by left|]. right.
        split; [apply elem_of_cons; by right | done].
Qed.

Lemma resolver_wf_keys_NoDup h s :
  resolver_wf h s → NoDup (mode_map_items h (_sound_mode_map s)).*1.
Proof.
  intros [Hwf _]%andb_True.
  apply mode_map_wf_inv in Hwf as (es & Hes & Hnd & _).
  rewrite mode_map_items_keys. unfold odict_entries. by rewrite Hes.
Qed.

Lemma mode_map_items_in_list h s m l :
  (m, l) ∈ mode_map_items h (_sound_mode_map s) → m ∈ sound_mode_list s h.
Proof.
  intros Hin. unfold sound_mode_list. rewrite <- mode_map_items_keys.
  apply list_elem_of_fmap. by exists (m, l).
Qed.

(** X9.  When an unrecognized raw sound mode has the uppercase form of a
    mode name, [match_sound_mode] replaces the alias list of that mode by the
    one name: the mode keeps its place in [sound_mode_list], and an alias it
    had, if no other mode has it, is no longer in the reverse map. *)
Theorem match_sound_mode_overwrites_mode s h x l r :
  resolver_wf h s → rev_in_sync h s → _sound_mode_raw s ≠ None →
  unknown_alias (mode_map_items h (_sound_mode_map s)) (upper x) →
  (upper x, l) ∈ mode_map_items h (_sound_mode_map s) → r ∈ l →
  alias_owned_by (mode_map_items h (_sound_mode_map s)) (upper r) (upper x) →
  let res := match_sound_mode s h x in
  odict_getitem (mode_map_items res.2 (_sound_mode_map res.1.2)) (upper x) =
    Some [upper x] ∧
  sound_mode_list res.1.2 res.2 = sound_mode_list s h ∧
  dict_table res.2 (_sound_mode_map_rev res.1.2) !! upper r = None.
Proof.
  intros Hwf Hsync Hraw Hun Hin Hr Hown res.
  pose proof (rev_in_sync_unknown _ _ _ Hsync Hun) as Hmiss.
  destruct (match_sound_mode_miss s h x Hwf Hraw Hmiss)
    as (_ & [rev Hs] & _ & Hsync' & Hitems).
  fold res in Hs, Hsync', Hitems.
  assert (_sound_mode_map res.1.2 = _sound_mode_map s) as Hmap by by rewrite Hs.
  rewrite Hmap. split_and!.
  - rewrite Hitems. apply odict_setitem_getitem.
  - unfold sound_mode_list. rewrite Hmap, <- !mode_map_items_keys, Hitems.
    rewrite odict_setitem_keys, decide_True; [done|].
    apply list_elem_of_fmap. by exists (upper x, l).
  - rewrite Hsync'. unfold sound_mode_rev_map_factory. rewrite Hmap, Hitems.
    apply rev_map_of_items_unknown, Forall_forall.
    intros e He'.
    apply odict_setitem_elem_of_other in He' as [->|[He Hne]];
      [| |by apply resolver_wf_keys_NoDup].
    + apply Forall_singleton. rewrite upper_idemp.
      unfold unknown_alias in Hun. rewrite Forall_forall in Hun.
      specialize (Hun _ Hin). rewrite Forall_forall in Hun.
      intros Heq. by apply (Hun r Hr).
    + apply Forall_forall. intros r' Hr' Heq.
      unfold alias_owned_by in Hown. rewrite Forall_forall in Hown.
      specialize (Hown _ He). rewrite Forall_forall in Hown.
      by apply Hne, (Hown r').
Qed.

Lemma match_sound_mode_overwrites_mode_witness :
  let st := updated_resolver "STEREO" in
  let res := match_sound_mode (self st) (heap st) "Music" in
  ("MUSIC", ["PLII MUSIC"; "DTS NEO:6 MUSIC"]) ∈
    mode_map_items (heap st) (_sound_mode_map (self st)) ∧
  dict_table (heap st) (_sound_mode_map_rev (self st)) !! "PLII MUSIC" =
    Some "MUSIC" ∧
  odict_getitem (mode_map_items res.2 (_sound_mode_map res.1.2)) (upper "Music") =
    Some [upper "Music"] ∧
  sound_mode_list res.1.2 res.2 = sound_mode_list (self st) (heap st) ∧
  dict_table res.2 (_sound_mode_map_rev res.1.2) !! upper "PLII MUSIC" = None.
Proof.
  intros st res.
  split; [by_evaluation|]. split; [by_evaluation|].
  apply (match_sound_mode_overwrites_mode (self st) (heap st) "Music"
           ["PLII MUSIC"; "DTS NEO:6 MUSIC"] "PLII MUSIC"); by_evaluation.
Defined.

(** X10.  With a raw sound mode stored, one call of [match_sound_mode]
    settles its argument: the next call with the same argument returns a name
    of [sound_mode_list] and changes nothing. *)
Theorem match_sound_mode_settles s h x :
  resolver_wf h s → rev_in_sync h s → _sound_mode_raw s ≠ None →
  let first := match_sound_mode s h x in
  let second := match_sound_mode first.1.2 first.2 x in
  ∃ m, second = (Some m, first.1.2, first.2) ∧
       m ∈ sound_mode_list first.1.2 first.2.
Proof.
  intros Hwf Hsync Hraw first.
  destruct (dict_table h (_sound_mode_map_rev s) !! upper x) as [m|] eqn:Hm.
  - assert (first = (Some m, s, h)) as Hfirst by by apply match_sound_mode_hit.
    rewrite Hfirst. cbn [fst snd]. exists m. split.
    + by apply match_sound_mode_hit.
    + rewrite Hsync in Hm.
      apply rev_map_of_items_Some in Hm as (l & r & Hin & _).
      by eapply mode_map_items_in_list.
  - destruct (match_sound_mode_miss s h x Hwf Hraw Hm)
      as (_ & [rev Hs] & _ & Hsync' & Hitems).
    fold first in Hs, Hsync', Hitems.
    assert (_sound_mode_map first.1.2 = _sound_mode_map s) as Hmap
      by by rewrite Hs.
    exists (upper x). split.
    + apply match_sound_mode_hit; [by rewrite Hs|].
      rewrite Hsync'. unfold sound_mode_rev_map_factory. rewrite Hmap, Hitems.
      apply rev_map_of_items_extended; [|apply upper_idemp].
      apply rev_map_of_items_None. by rewrite <- Hsync.
    + apply (mode_map_items_in_list _ _ _ [upper x]).
      rewrite Hmap, Hitems. apply odict_setitem_new.
Qed.

Lemma match_sound_mode_settles_witness :
  let st := updated_resolver "STEREO" in
  let first := match_sound_mode (self st) (heap st) "Dolby Foo" in
  let second := match_sound_mode first.1.2 first.2 "Dolby Foo" in
  ∃ m, second = (Some m, first.1.2, first.2) ∧
       m ∈ sound_mode_list first.1.2 first.2.
Proof.
  intros st.
  apply (match_sound_mode_settles (self st) (heap st) "Dolby Foo");
    by_evaluation.
Defined.

(** ** [async_update_sound_mode] *)

Lemma async_update_attrs_status_xml_fetched st update_dict pages cache_id v :
  api (_device (self st)) (calls st)
    (StatusXmlUpdate update_dict pages cache_id) = Fetched v →
  async_update_attrs_status_xml update_dict pages cache_id st =
  (Return tt,
   {| self := with_sound_mode_raw (self st) v; heap := heap st;
      calls := calls st ++ [StatusXmlUpdate update_dict pages cache_id];
      update_tags := update_tags st |}).
Proof.
  intros Hok. unfold async_update_attrs_status_xml, bind, call_api.
  by rewrite Hok.
Qed.

Lemma async_update_attrs_status_xml_failed st update_dict pages cache_id e :
  api (_device (self st)) (calls st)
    (StatusXmlUpdate update_dict pages cache_id) = Failed e →
  async_update_attrs_status_xml update_dict pages cache_id st =
  (Raise e, record_call st (StatusXmlUpdate update_dict pages cache_id)).
Proof.
  intros Hfail. unfold async_update_attrs_status_xml, bind, call_api.
  by rewrite Hfail.
Qed.

(** Every way an update on the status-page API can go. *)
Lemma async_update_sound_mode_status_cases st global_update cache_id :
  let device := _device (self st) in
  let call1 := first_lookup device cache_id in
  let call2 := second_lookup device cache_id in
  use_avr_2016_update device = Some false →
  _support_sound_mode (self st) ≠ Some false →
  async_update_sound_mode global_update cache_id st =
  match api device (calls st) call1 with
  | Fetched v => (Return tt, after_lookup st v [call1])
  | Failed (OtherError n) => (Raise (OtherError n), record_call st call1)
  | Failed (AvrProcessingError _) =>
      match api device (calls st ++ [call1]) call2 with
      | Fetched v => (Return tt, after_lookup st v [call1; call2])
      | Failed (OtherError n) =>
          (Raise (OtherError n), record_call (record_call st call1) call2)
      | Failed (AvrProcessingError _) =>
          (Return tt,
           set_self (λ s, with_support_sound_mode s (Some false))
             (record_call (record_call st call1) call2)).2
      end
  end.
Proof.
  intros device call1 call2 Hflag Hsup. subst device call1 call2.
  unfold async_update_sound_mode, bind, get_self. rewrite Hflag.
  unfold first_lookup, second_lookup, status_pages, after_lookup in *.
  destruct (api _ (calls st) _) as [v|[msg|n]] eqn:H1.
  - destruct (_support_sound_mode (self st)) as [[]|] eqn:Hs; try done;
      unfold try_except_AvrProcessingError, await, bind;
      by rewrite (async_update_attrs_status_xml_fetched _ _ _ _ _ H1).
  - destruct (api _ (calls st ++ _) _) as [v|[msg2|n]] eqn:H2;
      (destruct (_support_sound_mode (self st)) as [[]|] eqn:Hs; try done;
       unfold try_except_AvrProcessingError, await, bind;
       rewrite (async_update_attrs_status_xml_failed _ _ _ _ _ H1)).
    1, 2: rewrite (async_update_attrs_status_xml_fetched (record_call st _)
                     _ _ _ _ H2);
      unfold ret, set_self, record_call; cbn [self heap calls update_tags];
      by rewrite <- app_assoc.
    all: by rewrite (async_update_attrs_status_xml_failed (record_call st _)
                       _ _ _ _ H2).
  - destruct (_support_sound_mode (self st)) as [[]|] eqn:Hs; try done;
      unfold try_except_AvrProcessingError, await, bind;
      by rewrite (async_update_attrs_status_xml_failed _ _ _ _ _ H1).
Qed.

(** X11.  On the status-page API, when the first lookup succeeds the second
    is not tried: one call is made, the value is stored right-stripped as
    the raw sound mode, the support flag is [True], and nothing else
    changes.  (The lookup itself is the helper of foundation.py as the
    specification describes it.) *)
Theorem async_update_sound_mode_first_lookup st global_update cache_id value :
  let device := _device (self st) in
  use_avr_2016_update device = Some false →
  _support_sound_mode (self st) ≠ Some false →
  api device (calls st) (first_lookup device cache_id) = Fetched value →
  async_update_sound_mode global_update cache_id st =
  (Return tt, after_lookup st value [first_lookup device cache_id]).
Proof.
  intros device Hflag Hsup H1.
  rewrite (async_update_sound_mode_status_cases st global_update cache_id
             Hflag Hsup).
  fold device. by rewrite H1.
Qed.

Lemma async_update_sound_mode_first_lookup_witness :
  let st := fresh_resolver "Stereo  " in
  async_update_sound_mode false None st =
    (Return tt, after_lookup st (Some "Stereo  ")
                  [first_lookup (_device (self st)) None]) ∧
  _sound_mode_raw (self (async_update_sound_mode false None st).2) =
    Some "Stereo".
Proof.
  intros st.
  assert (async_update_sound_mode false None st =
          (Return tt, after_lookup st (Some "Stereo  ")
                        [first_lookup (_device (self st)) None])) as Hrun.
  { apply (async_update_sound_mode_first_lookup st false None
             (Some "Stereo  ")); by_evaluation. }
  split; [exact Hrun|]. by rewrite Hrun.
Defined.

(** X12.  On the status-page API, when the first lookup fails with a
    processing error and the second succeeds, two calls are made, the value
    of the second is stored right-stripped as the raw sound mode, the support
    flag is [True], and the caller sees no error. *)
Theorem async_update_sound_mode_second_lookup st global_update cache_id msg
    value :
  let device := _device (self st) in
  use_avr_2016_update device = Some false →
  _support_sound_mode (self st) ≠ Some false →
  api device (calls st) (first_lookup device cache_id) =
    Failed (AvrProcessingError msg) →
  api device (calls st ++ [first_lookup device cache_id])
    (second_lookup device cache_id) = Fetched value →
  async_update_sound_mode global_update cache_id st =
  (Return tt,
   after_lookup st value
     [first_lookup device cache_id; second_lookup device cache_id]).
Proof.
  intros device Hflag Hsup H1 H2.
  rewrite (async_update_sound_mode_status_cases st global_update cache_id
             Hflag Hsup).
  fold device. by rewrite H1, H2.
Qed.

Lemma async_update_sound_mode_second_lookup_witness :
  let st := resolver_of (fallback_device "Dolby Digital ") in
  let r := async_update_sound_mode false None st in
  r.1 = Return tt ∧ _support_sound_mode (self r.2) = Some true ∧
  _sound_mode_raw (self r.2) = Some "Dolby Digital" ∧
  length (calls r.2) = 2.
Proof.
  intros st r.
  assert (r = (Return tt,
               after_lookup st (Some "Dolby Digital ")
                 [first_lookup (_device (self st)) None;
                  second_lookup (_device (self st)) None])) as ->.
  { apply (async_update_sound_mode_second_lookup st false None
             "attribute not found" (Some "Dolby Digital ")); by_evaluation. }
  by split_and!.
Defined.

(** X13.  On the status-page API an error of a lookup that is not a
    processing error reaches the caller as it is, whether the first lookup
    raises it or the second after the first has failed with a processing
    error; the resolver is left as it was. *)
Theorem async_update_sound_mode_error_propagates st global_update cache_id
    name :
  let device := _device (self st) in
  let call1 := first_lookup device cache_id in
  let call2 := second_lookup device cache_id in
  use_avr_2016_update device = Some false →
  _support_sound_mode (self st) ≠ Some false →
  api device (calls st) call1 = Failed (OtherError name) ∨
  (∃ msg, api device (calls st) call1 = Failed (AvrProcessingError msg) ∧
          api device (calls st ++ [call1]) call2 = Failed (OtherError name)) →
  let r := async_update_sound_mode global_update cache_id st in
  r.1 = Raise (OtherError name) ∧ self r.2 = self st ∧ heap r.2 = heap st.
Proof.
  intros device call1 call2 Hflag Hsup Herr r. unfold r.
  rewrite (async_update_sound_mode_status_cases st global_update cache_id
             Hflag Hsup).
  fold device call1 call2.
  destruct Herr as [-> | (msg & -> & ->)]; done.
Qed.

Lemma async_update_sound_mode_error_propagates_witness :
  let st := resolver_of offline_device in
  let r := async_update_sound_mode false None st in
  r.1 = Raise (OtherError "AvrNetworkError") ∧ self r.2 = self st ∧
  heap r.2 = heap st.
Proof.
  intros st.
  apply (async_update_sound_mode_error_propagates st false None
           "AvrNetworkError"); [by_evaluation.. | left; by_evaluation].
Defined.

(** X14.  On the status-page API [async_update_sound_mode] never raises a
    processing error, and when it returns normally the support flag is
    decided, [True] or [False]. *)
Theorem async_update_sound_mode_status_outcome st global_update cache_id :
  use_avr_2016_update (_device (self st)) = Some false →
  let r := async_update_sound_mode global_update cache_id st in
  (∀ msg, r.1 ≠ Raise (AvrProcessingError msg)) ∧
  (r.1 = Return tt → _support_sound_mode (self r.2) ≠ None).
Proof.
  intros Hflag r.
  destruct (decide (_support_sound_mode (self st) = Some false)) as [Hs|Hs].
  - unfold r. rewrite async_update_sound_mode_returns_at_once by done.
    cbn [fst snd]. split; [done|]. intros _. by rewrite Hs.
  - unfold r.
    rewrite (async_update_sound_mode_status_cases st global_update cache_id
               Hflag Hs).
    destruct (api _ _ (first_lookup _ _)) as [v|[msg1|n1]]; [done| |done].
    by destruct (api _ _ (second_lookup _ _)) as [v|[msg2|n2]].
Qed.

Lemma async_update_sound_mode_status_outcome_witness :
  let st := silent_resolver in
  let r := async_update_sound_mode false None st in
  (∀ msg, r.1 ≠ Raise (AvrProcessingError msg)) ∧
  (r.1 = Return tt → _support_sound_mode (self r.2) ≠ None).
Proof.
  intros st.
  apply (async_update_sound_mode_status_outcome st false None). reflexivity.
Defined.

Lemma async_update_sound_mode_unset_cases st global_update cache_id :
  use_avr_2016_update (_device (self st)) = None →
  async_update_sound_mode global_update cache_id st =
  (Raise (AvrProcessingError
            "Device is not setup correctly, update method not set"), st).
Proof.
  intros Hflag. unfold async_update_sound_mode, bind, get_self.
  by rewrite Hflag.
Qed.

(** X15.  Whatever the device, [async_update_sound_mode] only adds to the
    calls made, at most two of them, and it never touches the heap, the
    device or the two maps of the resolver. *)
Theorem async_update_sound_mode_bounded st global_update cache_id :
  let r := async_update_sound_mode global_update cache_id st in
  (∃ new, calls r.2 = calls st ++ new ∧ (length new ≤ 2)%nat) ∧
  heap r.2 = heap st ∧ _device (self r.2) = _device (self st) ∧
  _sound_mode_map (self r.2) = _sound_mode_map (self st) ∧
  _sound_mode_map_rev (self r.2) = _sound_mode_map_rev (self st).
Proof.
  intros r.
  destruct (keeps_maps_async_update_sound_mode global_update cache_id st)
    as (Hh & Hm & Hr).
  fold r in Hh, Hm, Hr.
  cut ((∃ new, calls r.2 = calls st ++ new ∧ (length new ≤ 2)%nat) ∧
       _device (self r.2) = _device (self st)); [by intros [? ?]|].
  assert (∃ new, calls st = calls st ++ new ∧ (length new ≤ 2)%nat) as H0.
  { exists []. split; [by rewrite app_nil_r | simpl; lia]. }
  assert (∀ c, ∃ new, calls (record_call st c) = calls st ++ new ∧
                      (length new ≤ 2)%nat) as H1.
  { intros c. exists [c]. split; [done | simpl; lia]. }
  assert (∀ c c', ∃ new, calls (record_call (record_call st c) c') =
                           calls st ++ new ∧ (length new ≤ 2)%nat) as H2.
  { intros c c'. exists [c; c']. split; [|simpl; lia].
    simpl. by rewrite <- app_assoc. }
  destruct (use_avr_2016_update (_device (self st))) as [[]|] eqn:Hflag.
  - unfold r, async_update_sound_mode, bind, get_self. rewrite Hflag.
    unfold await, async_update_attrs_appcommand, bind, call_api.
    destruct (api _ _ _); (split; [apply H1 | done]).
  - destruct (decide (_support_sound_mode (self st) = Some false)) as [Hs|Hs].
    + unfold r. by rewrite async_update_sound_mode_returns_at_once.
    + unfold r.
      rewrite (async_update_sound_mode_status_cases st global_update cache_id
                 Hflag Hs).
      destruct (api _ _ (first_lookup _ _)) as [v|[msg1|n1]];
        [split; [apply H1 | done]| |split; [apply H1 | done]].
      destruct (api _ _ (second_lookup _ _)) as [v|[msg2|n2]];
        (split; [|done]).
      * exists [first_lookup (_device (self st)) cache_id;
                second_lookup (_device (self st)) cache_id].
        split; [done | simpl; lia].
      * apply H2.
      * apply H2.
  - unfold r. by rewrite async_update_sound_mode_unset_cases.
Qed.

(** X16.  On the AppCommand API [async_update_sound_mode] makes exactly one
    call, fails exactly when that call fails and with its error, and leaves
    the support flag as it was. *)
Theorem async_update_sound_mode_appcommand st global_update cache_id :
  let device := _device (self st) in
  let call := AppCommandUpdate appcommand_attrs global_update cache_id in
  use_avr_2016_update device = Some true →
  let r := async_update_sound_mode global_update cache_id st in
  calls r.2 = calls st ++ [call] ∧
  _support_sound_mode (self r.2) = _support_sound_mode (self st) ∧
  r.1 = match api device (calls st) call with
        | Fetched _ => Return tt
        | Failed e => Raise e
        end.
Proof.
  intros device call Hflag. subst device call.
  unfold async_update_sound_mode, bind, get_self. rewrite Hflag.
  unfold await, async_update_attrs_appcommand, bind, call_api.
  by destruct (api _ _ _).
Qed.

Lemma async_update_sound_mode_appcommand_witness :
  let st := resolver_of (appcommand_device "STEREO") in
  let r := async_update_sound_mode true (Some 3) st in
  calls r.2 = calls st ++ [AppCommandUpdate appcommand_attrs true (Some 3)] ∧
  _support_sound_mode (self r.2) = None ∧ r.1 = Return tt.
Proof.
  intros st.
  destruct (async_update_sound_mode_appcommand st true (Some 3))
    as (H1 & H2 & H3); [reflexivity|].
  by split_and!.
Defined.

(** ** [async_setup] and [async_update] *)

Lemma async_update_sound_mode_is_setup st global_update cache_id :
  _is_setup (self (async_update_sound_mode global_update cache_id st).2) =
  _is_setup (self st).
Proof.
  destruct (use_avr_2016_update (_device (self st))) as [[]|] eqn:Hflag.
  - unfold async_update_sound_mode, bind, get_self. rewrite Hflag.
    unfold await, async_update_attrs_appcommand, bind, call_api.
    by destruct (api _ _ _).
  - destruct (decide (_support_sound_mode (self st) = Some false)) as [Hs|Hs].
    + by rewrite async_update_sound_mode_returns_at_once.
    + rewrite (async_update_sound_mode_status_cases st global_update cache_id
                 Hflag Hs).
      destruct (api _ _ (first_lookup _ _)) as [v|[msg1|n1]]; [done| |done].
      by destruct (api _ _ (second_lookup _ _)) as [v|[msg2|n2]].
  - by rewrite async_update_sound_mode_unset_cases.
Qed.

(** X17.  [async_setup] marks the resolver as set up exactly when it returns
    normally; when the update it runs raises, the setup flag stays as it was
    and the error reaches the caller. *)
Theorem async_setup_marks_setup st :
  let r := async_setup st in
  _is_setup (self r.2) =
  match r.1 with
  | Return _ => true
  | Raise _ => _is_setup (self st)
  end.
Proof.
  unfold async_setup, appcommand_attrs. cbn [foldr].
  unfold bind, add_appcommand_update_tag, ret, get_self, await.
  cbn [self].
  destruct (receiver (_device (self st))); [|done..].
  set (st1 := {| self := self st; heap := heap st; calls := calls st;
                 update_tags := update_tags st ++ [GetSurroundModeStatus] |}).
  pose proof (async_update_sound_mode_is_setup st1 false None) as Hkeep.
  by destruct (async_update_sound_mode false None st1) as [[[]|e] st2].
Qed.

(** X18.  For a receiver of the AVR-X or AVR-X 2016 family [async_setup]
    makes no call to the device: it returns normally with the support flag
    [True], whatever the flag was, and the resolver set up. *)
Theorem async_setup_avr_x st :
  receiver (_device (self st)) ≠ AVR →
  let r := async_setup st in
  r.1 = Return tt ∧ calls r.2 = calls st ∧ heap r.2 = heap st ∧
  self r.2 =
    with_is_setup (with_support_sound_mode (self st) (Some true)) true.
Proof.
  intros Hrec. unfold async_setup, appcommand_attrs. cbn [foldr].
  unfold bind, add_appcommand_update_tag, ret, get_self, await.
  cbn [self].
  by destruct (receiver (_device (self st))).
Qed.

Lemma async_setup_avr_x_witness :
  let st := resolver_of (appcommand_device "STEREO") in
  let r := async_setup st in
  r.1 = Return tt ∧ calls r.2 = calls st ∧ heap r.2 = heap st ∧
  self r.2 =
    with_is_setup (with_support_sound_mode (self st) (Some true)) true.
Proof. intros st. apply (async_setup_avr_x st). by_evaluation. Defined.

(** X19.  The first [async_update] of a receiver of the AVR family on the
    status-page API looks the sound mode up twice, once for the setup and
    once for the update itself; if both lookups succeed the resolver is set
    up, the support flag is [True] and the raw sound mode is the value of the
    second. *)
Theorem async_update_first_time st global_update cache_id value1 value2 :
  let device := _device (self st) in
  _is_setup (self st) = false → receiver device = AVR →
  use_avr_2016_update device = Some false →
  _support_sound_mode (self st) ≠ Some false →
  api device (calls st) (first_lookup device None) = Fetched value1 →
  api device (calls st ++ [first_lookup device None])
    (first_lookup device cache_id) = Fetched value2 →
  let r := async_update global_update cache_id st in
  r.1 = Return tt ∧
  calls r.2 =
    calls st ++ [first_lookup device None; first_lookup device cache_id] ∧
  _is_setup (self r.2) = true ∧
  _support_sound_mode (self r.2) = Some true ∧
  _sound_mode_raw (self r.2) = rstrip_string value2.
Proof.
  intros device Hsetup Hrec Hflag Hsup H1 H2 r. subst device.
  set (st2 := {| self := with_is_setup
                           (with_support_sound_mode
                              (with_sound_mode_raw (self st) value1)
                              (Some true)) true;
                 heap := heap st;
                 calls := calls st ++ [first_lookup (_device (self st)) None];
                 update_tags := update_tags st ++ [GetSurroundModeStatus] |}).
  assert (async_setup st = (Return tt, st2)) as Hrun_setup.
  { unfold async_setup, appcommand_attrs. cbn [foldr].
    unfold bind, add_appcommand_update_tag, ret, get_self, await.
    cbn [self]. rewrite Hrec.
    set (st1 := {| self := self st; heap := heap st; calls := calls st;
                   update_tags := update_tags st ++ [GetSurroundModeStatus] |}).
    rewrite (async_update_sound_mode_status_cases st1 false None Hflag Hsup).
    cbn [st1 self calls]. by rewrite H1. }
  assert (r = (Return tt,
               after_lookup st2 value2
                 [first_lookup (_device (self st)) cache_id])) as ->.
  { unfold r, async_update, bind, get_self. rewrite Hsetup.
    unfold await. rewrite Hrun_setup. unfold ret.
    rewrite (async_update_sound_mode_status_cases st2 global_update cache_id);
      [|done..].
    cbn [st2 self calls _device with_is_setup with_support_sound_mode
         with_sound_mode_raw].
    by rewrite H2. }
  cbn. split_and!; try done. by rewrite <- app_assoc.
Qed.

Lemma async_update_first_time_witness :
  let st := fresh_resolver "Stereo " in
  let r := async_update true (Some 5) st in
  r.1 = Return tt ∧
  calls r.2 =
    [first_lookup (_device (self st)) None;
     first_lookup (_device (self st)) (Some 5)] ∧
  _is_setup (self r.2) = true ∧
  _support_sound_mode (self r.2) = Some true ∧
  _sound_mode_raw (self r.2) = Some "Stereo".
Proof.
  intros st.
  apply (async_update_first_time st true (Some 5) (Some "Stereo ")
           (Some "Stereo ")); by_evaluation.
Defined.

(** X20.  [async_update], with the setup it may run, never touches the heap
    and never rebinds the mode map or the reverse map of the resolver: what
    [sound_mode_list] and the two map accessors show is the same before and
    after. *)
Theorem async_update_keeps_maps st global_update cache_id :
  let r := async_update global_update cache_id st in
  heap r.2 = heap st ∧
  _sound_mode_map (self r.2) = _sound_mode_map (self st) ∧
  _sound_mode_map_rev (self r.2) = _sound_mode_map_rev (self st) ∧
  sound_mode_list (self r.2) (heap r.2) = sound_mode_list (self st) (heap st).
Proof.
  intros r.
  destruct (keeps_maps_async_update global_update cache_id st)
    as (Hh & Hm & Hr).
  fold r in Hh, Hm, Hr. split_and!; try done.
  unfold sound_mode_list. by rewrite Hh, Hm.
Qed.

(** ** [async_set_sound_mode] *)

(** X21.  Selecting a mode other than the all-zone-stereo pseudo-mode reads
    the [sound_mode] property on the way: the resolver and the heap are
    afterwards what that read leaves, so an unknown raw sound mode is added to
    the mode map by the selection as it would be by the read. *)
Theorem async_set_sound_mode_reads_sound_mode st target :
  target ≠ ALL_ZONE_STEREO →
  let r := async_set_sound_mode target st in
  let read := sound_mode (self st) (heap st) in
  self r.2 = read.1.2 ∧ heap r.2 = read.2.
Proof.
  intros Hne. unfold async_set_sound_mode. rewrite decide_False by done.
  unfold bind, self_sound_mode, on_self, not_awaited, ret, get_self, await.
  cbn [self heap calls update_tags fst snd].
  set (read := sound_mode (self st) (heap st)).
  destruct (decide (read.1.1 = Some ALL_ZONE_STEREO)); cbn [self];
    by destruct (async_get_command_calls
                   (command_sel_sound_mode (urls (_device read.1.2)) +:+ target)
                   {| self := read.1.2; heap := read.2; calls := calls st;
                      update_tags := update_tags st |}) as (_ & ? & ?).
Qed.

Lemma async_set_sound_mode_reads_sound_mode_witness :
  let st := updated_resolver "Dolby Foo" in
  let r := async_set_sound_mode "STEREO" st in
  sound_mode_list (self st) (heap st) = ["MUSIC"; "STEREO"; "ALL ZONE STEREO"] ∧
  self r.2 = (sound_mode (self st) (heap st)).1.2 ∧
  heap r.2 = (sound_mode (self st) (heap st)).2 ∧
  sound_mode_list (self r.2) (heap r.2) =
    ["MUSIC"; "STEREO"; "ALL ZONE STEREO"; "DOLBY FOO"].
Proof.
  intros st r.
  destruct (async_set_sound_mode_reads_sound_mode st "STEREO") as [Hs Hh];
    [by_evaluation|].
  split_and!; [by_evaluation | exact Hs | exact Hh | by_evaluation].
Defined.

(** X22.  The mode-select command carries the target name as it was given,
    appended to the prefix of the device, whether or not the name is a known
    mode; it is the last call made, the selection fails exactly when the
    device fails that command, and with its error. *)
Theorem async_set_sound_mode_command st target :
  target ≠ ALL_ZONE_STEREO →
  let device := _device (self st) in
  let command :=
    GetCommand (command_sel_sound_mode (urls device) +:+ target) in
  let r := async_set_sound_mode target st in
  ∃ before,
    calls r.2 = calls st ++ before ++ [command] ∧
    r.1 = match api device (calls st ++ before) command with
          | Fetched _ => Return tt
          | Failed e => Raise e
          end.
Proof.
  intros Hne device command r. exists []. rewrite app_nil_r. subst r.
  unfold async_set_sound_mode. rewrite decide_False by done.
  unfold bind, self_sound_mode, on_self, not_awaited, ret, get_self, await.
  cbn [self heap calls update_tags fst snd].
  set (read := sound_mode (self st) (heap st)).
  assert (_device read.1.2 = device) as Hdev by apply sound_mode_device.
  destruct (decide (read.1.1 = Some ALL_ZONE_STEREO)); cbn [self];
    unfold async_get_command, bind, call_api, ret; cbn [self calls];
    rewrite Hdev; fold command; by destruct (api device (calls st) command).
Qed.

Lemma async_set_sound_mode_command_witness :
  let st := resolver_of offline_device in
  let r := async_set_sound_mode "No Such Mode" st in
  calls r.2 = [GetCommand "/goform/formiPhoneAppDirect.xml?MSNo Such Mode"] ∧
  r.1 = Raise (OtherError "AvrNetworkError").
Proof.
  intros st r.
  destruct (async_set_sound_mode_command st "No Such Mode")
    as (before & Hc & Hr); [by_evaluation|].
  split; by_evaluation.
Defined.

(** ** [sound_mode_factory] *)

(** X23.  A new resolver is not set up, has no support flag and no raw sound
    mode; its mode map is the table it was given, not a copy, and its reverse
    map is a new dictionary holding what the factory builds from the table as
    it is at that moment.  No object the heap had is changed. *)
Theorem sound_mode_factory_spec d device (h : gmap nat pyobj) :
  mode_map_wf h d →
  let r := sound_mode_factory d device h in
  _sound_mode_map r.1 = d ∧ _device r.1 = device ∧
  _is_setup r.1 = false ∧ _support_sound_mode r.1 = None ∧
  _sound_mode_raw r.1 = None ∧
  h !! _sound_mode_map_rev r.1 = None ∧ h ⊆ r.2 ∧
  resolver_wf r.2 r.1 ∧ rev_in_sync r.2 r.1 ∧
  dict_table r.2 (_sound_mode_map_rev r.1) =
    rev_map_of_items (mode_map_items h d).
Proof.
  intros Hwf r. unfold r, sound_mode_factory, new_DenonAVRSoundMode,
    sound_mode_rev_map_factory.
  cbn [_sound_mode_map fst snd with_sound_mode_map_rev _device _is_setup
       _support_sound_mode _sound_mode_raw _sound_mode_map_rev].
  set (o := PyDict (rev_map_of_items (mode_map_items h d))).
  pose proof (alloc_subseteq h o) as Hsub.
  pose proof (alloc_lookup_new h o) as Hnew.
  pose proof (alloc_fresh h o) as Hfresh.
  destruct (mode_map_weaken _ _ _ Hsub Hwf) as (Hwf' & Hitems & _).
  unfold resolver_wf, rev_in_sync, sound_mode_rev_map_factory, is_dict,
    dict_table.
  cbn [_sound_mode_map _sound_mode_map_rev with_sound_mode_map_rev].
  rewrite Hnew, Hitems. split_and!; done.
Qed.

Lemma sound_mode_factory_spec_witness :
  let r := sound_mode_factory 0 (sample_device "STEREO") sample_heap in
  _sound_mode_map r.1 = 0 ∧ sample_heap ⊆ r.2 ∧
  resolver_wf r.2 r.1 ∧ rev_in_sync r.2 r.1.
Proof.
  intros r.
  destruct (sound_mode_factory_spec 0 (sample_device "STEREO") sample_heap)
    as (H1 & _ & _ & _ & _ & _ & H7 & H8 & H9 & _); [vm_compute; exact I|].
  by split_and!.
Defined.

(** X24.  A mode one resolver has learned is known to every resolver made
    from the same table afterwards: once it stores a raw sound mode, such a
    resolver matches the same raw string to the learned name and changes
    nothing. *)
Theorem learned_mode_known_to_later_resolver s h x device raw :
  resolver_wf h s → rev_in_sync h s → _sound_mode_raw s ≠ None →
  unknown_alias (mode_map_items h (_sound_mode_map s)) (upper x) →
  let learned := match_sound_mode s h x in
  let later := sound_mode_factory (_sound_mode_map s) device learned.2 in
  let later_s := with_sound_mode_raw later.1 (Some raw) in
  match_sound_mode later_s later.2 x = (Some (upper x), later_s, later.2).
Proof.
  intros Hwf Hsync Hraw Hun learned later later_s.
  pose proof (rev_in_sync_unknown _ _ _ Hsync Hun) as Hmiss.
  destruct (match_sound_mode_miss s h x Hwf Hraw Hmiss)
    as (_ & [rev Hs] & Hwf' & _ & Hitems).
  fold learned in Hs, Hwf', Hitems.
  apply andb_True in Hwf' as [Hwf' _]. rewrite Hs in Hwf'.
  cbn [_sound_mode_map with_sound_mode_map_rev] in Hwf'.
  apply match_sound_mode_hit; [done|].
  unfold later_s, later, sound_mode_factory, new_DenonAVRSoundMode,
    sound_mode_rev_map_factory, dict_table.
  cbn [_sound_mode_map _sound_mode_map_rev fst snd with_sound_mode_map_rev
       with_sound_mode_raw].
  rewrite alloc_lookup_new, Hitems.
  apply rev_map_of_items_extended; [done | apply upper_idemp].
Qed.

Lemma learned_mode_known_to_later_resolver_witness :
  let st := updated_resolver "STEREO" in
  let learned := match_sound_mode (self st) (heap st) "Dolby Foo" in
  let later := sound_mode_factory (_sound_mode_map (self st))
                 (sample_device "Dolby Foo") learned.2 in
  let later_s := with_sound_mode_raw later.1 (Some "Dolby Foo") in
  match_sound_mode later_s later.2 "Dolby Foo" =
    (Some (upper "Dolby Foo"), later_s, later.2).
Proof.
  intros st.
  apply (learned_mode_known_to_later_resolver (self st) (heap st) "Dolby Foo"
           (sample_device "Dolby Foo") "Dolby Foo"); by_evaluation.
Defined.

(** ** From the device to the [sound_mode] property *)

(** X25.  On the status-page API, after an update whose first lookup
    returned a value, the [sound_mode] property returns the mode of the alias
    that value names, trailing whitespace and case aside, and changes
    nothing.  (The lookup itself is the helper of foundation.py as the
    specification describes it.) *)
Theorem sound_mode_after_update st global_update cache_id value m l r :
  let device := _device (self st) in
  use_avr_2016_update device = Some false →
  _support_sound_mode (self st) ≠ Some false →
  api device (calls st) (first_lookup device cache_id) = Fetched (Some value) →
  rev_in_sync (heap st) (self st) →
  (m, l) ∈ mode_map_items (heap st) (_sound_mode_map (self st)) → r ∈ l →
  upper r = upper (rstrip value) →
  alias_owned_by (mode_map_items (heap st) (_sound_mode_map (self st)))
    (upper r) m →
  let st' := (async_update_sound_mode global_update cache_id st).2 in
  sound_mode (self st') (heap st') = (Some m, self st', heap st').
Proof.
  intros device Hflag Hsup H1 Hsync Hin Hr Hup Hown st'.
  assert (st' = after_lookup st (Some value) [first_lookup device cache_id])
    as ->.
  { unfold st'.
    rewrite (async_update_sound_mode_status_cases st global_update cache_id
               Hflag Hsup).
    fold device. by rewrite H1. }
  unfold sound_mode.
  cbn [after_lookup self heap _sound_mode_raw with_support_sound_mode
       with_sound_mode_raw rstrip_string].
  apply match_sound_mode_hit; [done|].
  cbn [_sound_mode_map_rev]. rewrite <- Hup, Hsync.
  by apply (rev_map_of_items_owned _ m l).
Qed.

Lemma sound_mode_after_update_witness :
  let st := fresh_resolver "plii Music  " in
  let st' := (async_update_sound_mode false None st).2 in
  sound_mode (self st') (heap st') = (Some "MUSIC", self st', heap st').
Proof.
  intros st.
  apply (sound_mode_after_update st false None "plii Music  " "MUSIC"
           ["PLII MUSIC"; "DTS NEO:6 MUSIC"] "PLII MUSIC"); by_evaluation.
Defined.

(** ** Witnesses of the properties of a resolver and its owner *)

Lemma lone_resolver_invariant_witness :
  let ops := [AsyncUpdate false None; ReadSoundMode;
              MatchSoundMode "Dolby Foo"; AsyncSetSoundMode "STEREO";
              ReadSoundModeMap [Clear]; MatchSoundMode "music"] in
  let st := foldl run (resolver_of (sample_device "Auro-3D ")) ops in
  sound_mode_list (self st) (heap st) =
    ["MUSIC"; "STEREO"; "ALL ZONE STEREO"; "AURO-3D"; "DOLBY FOO"] ∧
  rev_index_invariant (heap st) (self st).
Proof.
  intros ops st. split; [by_evaluation|].
  apply (lone_resolver_invariant 0 (sample_device "Auro-3D ") sample_heap ops).
  - vm_compute. exact I.
  - by_decide.
Defined.

Lemma sound_mode_before_successful_update_witness :
  let ops := [AsyncUpdate false None; ReadSoundMode;
              AsyncSetSoundMode "STEREO"; MatchSoundMode "STEREO"] in
  let st := foldl run (resolver_of offline_device) ops in
  sound_mode (self st) (heap st) = (None, self st, heap st).
Proof.
  intros ops.
  exact (sound_mode_before_successful_update 0 offline_device sample_heap ops
           (λ cs c, ex_intro _ (OtherError "AvrNetworkError") eq_refl)).
Defined.

Lemma async_update_unsupported_witness :
  let st := (async_update false None silent_resolver).2 in
  _is_setup (self st) = true ∧ _support_sound_mode (self st) = Some false ∧
  async_update true (Some 1) st = (Return tt, st).
Proof.
  intros st. split; [reflexivity|]. split; [reflexivity|].
  apply (async_update_unsupported st true (Some 1)); reflexivity.
Defined.
